(** * Music player: the browser front end (frontend/app/routes/home.tsx)
      and the remote-control API described in the project README.

    The front end is one React function component.  Its state cells
    ([useState]), the [audioRef] handle and the event handlers are embedded
    as a record and state-passing functions.  JavaScript numbers are IEEE 754
    binary64 values; they are modelled with the executable specification of
    binary floating point of the standard library ([spec_float] at precision
    53, maximal exponent 1024), so rounding, NaN and the infinities are part
    of the model. *)

From Stdlib Require Import ZArith Zpower QArith Qround List String Ascii Bool.
From Stdlib Require Import Lia SpecFloat DecimalString DecimalN.
Import ListNotations.

Local Open Scope Z_scope.

(* ================================================================== *)
(** * JavaScript numbers *)
(* ================================================================== *)

Module JsNumber.

Definition prec : Z := 53.
Definition emax : Z := 1024.

(** A JavaScript number.  The values of interest are the [valid] ones
    (canonical mantissa and exponent in range). *)
Definition number : Type := spec_float.

Definition valid (x : number) : bool := valid_binary prec emax x.

Definition NaN : number := S754_nan.

(** The number denoted by an integer literal (rounded to nearest even when
    the integer has more than 53 significant bits). *)
Definition of_Z (z : Z) : number := binary_normalize prec emax z 0 false.

Definition isFinite (x : number) : bool :=
  match x with
  | S754_zero _ | S754_finite _ _ _ => true
  | _ => false
  end.

(** Comparisons [<=] and [<] of the language; every comparison with NaN is
    false. *)
Definition leb (x y : number) : bool := SFleb x y.
Definition ltb (x y : number) : bool := SFltb x y.

(** [x / y]. *)
Definition div (x y : number) : number := SFdiv prec emax x y.

Definition signed (s : bool) (m : positive) : Z :=
  if s then Zneg m else Zpos m.

(** [Math.floor]: exact, the result is always representable. *)
Definition floor (x : number) : number :=
  match x with
  | S754_finite s m e =>
      if 0 <=? e then x else of_Z (Z.shiftr (signed s m) (- e))
  | _ => x
  end.

(** [n % d] (Number::remainder): the result has the sign of the dividend
    and is exact. *)
Definition rem (n d : number) : number :=
  match n, d with
  | S754_nan, _ | _, S754_nan => NaN
  | S754_infinity _, _ => NaN
  | _, S754_infinity _ => n
  | _, S754_zero _ => NaN
  | S754_zero _, _ => n
  | S754_finite sn mn en, S754_finite sd md ed =>
      let e := Z.min en ed in
      let N := Z.shiftl (Zpos mn) (en - e) in
      let D := Z.shiftl (Zpos md) (ed - e) in
      binary_normalize prec emax (cond_Zopp sn (Z.rem N D)) e sn
  end.

(** The integer a number denotes, when it denotes one. *)
Definition toZ (x : number) : option Z :=
  match x with
  | S754_zero _ => Some 0
  | S754_finite s m e =>
      if 0 <=? e then Some (Z.shiftl (signed s m) e)
      else if Z.land (Zpos m) (Z.ones (- e)) =? 0
           then Some (Z.shiftr (signed s m) (- e))
           else None
  | _ => None
  end.

(** The exact rational value of a finite number (0 for the others). *)
Definition toQ (x : number) : Q :=
  match x with
  | S754_finite s m e =>
      if 0 <=? e then inject_Z (Z.shiftl (signed s m) e)
      else Qmake (signed s m) (Z.to_pos (2 ^ (- e)))
  | _ => 0%Q
  end.

(** ** Decimal literals *)

(** The number nearest to [m * 10 ^ e10] for a positive integer [m]
    (StringNumericValue / the Number value of a decimal literal): the
    quotient is computed with its rounding position and rounded once. *)
Definition of_decimal (neg : bool) (m : Z) (e10 : Z) : number :=
  if m <=? 0 then S754_zero neg
  else if 310 <? Z.log2 m / 4 + e10 then S754_infinity neg
  else if Z.log2 m + 1 + 3 * e10 <? - 1080 then S754_zero neg
  else if 0 <=? e10 then
    binary_normalize prec emax (cond_Zopp neg (m * 10 ^ e10)) 0 neg
  else
    let '(q, e, l) := SFdiv_core_binary prec emax m 0 (10 ^ (- e10)) 0 in
    binary_round_aux prec emax neg q e l.

Definition digit_of (c : ascii) : option Z :=
  let n := Z.of_N (N_of_ascii c) in
  if (48 <=? n) && (n <=? 57) then Some (n - 48) else None.

(** Reads the longest run of decimal digits of [s] on top of the value
    [acc]: the value, the number of digits read and the rest. *)
Fixpoint read_digits (s : string) (acc len : Z) : Z * Z * string :=
  match s with
  | String c s' =>
      match digit_of c with
      | Some d => read_digits s' (10 * acc + d) (len + 1)
      | None => (acc, len, s)
      end
  | EmptyString => (acc, len, s)
  end.

Definition is_white (c : ascii) : bool :=
  let n := Z.of_N (N_of_ascii c) in
  ((9 <=? n) && (n <=? 13)) || (n =? 32).

Fixpoint trimStart (s : string) : string :=
  match s with
  | String c s' => if is_white c then trimStart s' else s
  | EmptyString => s
  end.

Definition read_sign (s : string) : bool * string :=
  match s with
  | String "-"%char r => (true, r)
  | String "+"%char r => (false, r)
  | _ => (false, s)
  end.

(** ExponentPart: [e] or [E], an optional sign and at least one digit;
    anything else is not part of the literal. *)
Definition read_exponent (s : string) : Z :=
  match s with
  | String c r =>
      if (Ascii.eqb c "e" || Ascii.eqb c "E")%bool then
        let '(neg, r') := read_sign r in
        let '(v, len, _) := read_digits r' 0 0 in
        if len =? 0 then 0 else cond_Zopp neg v
      else 0
  | EmptyString => 0
  end.

(** The global function [parseFloat]: leading white space is skipped, the
    longest prefix that is a decimal literal is converted, and the result
    is NaN when there is no such prefix. *)
Definition parseFloat (input : string) : number :=
  let '(neg, s) := read_sign (trimStart input) in
  if String.prefix "Infinity" s then S754_infinity neg
  else
    let '(ip, il, s1) := read_digits s 0 0 in
    let '(fp, fl, s2) :=
      match s1 with
      | String "."%char r => read_digits r ip 0
      | _ => (ip, 0, s1)
      end in
    if il + fl =? 0 then NaN
    else of_decimal neg fp (read_exponent s2 - fl).

(** ** Number::toString (radix 10) *)

(** Decimal digits of a non-negative integer. *)
Definition decimal (n : Z) : string :=
  NilZero.string_of_uint (N.to_uint (Z.to_N n)).

Fixpoint zeros (n : nat) : string :=
  match n with
  | O => EmptyString
  | S n' => String "0"%char (zeros n')
  end.

Section Shortest.
(** The positive finite number [x] is [A / B]. *)
Variable x : number.
Variables A B : Z.

(** [x * 10 ^ j] as a fraction. *)
Definition scaled (j : Z) : Z * Z :=
  if 0 <=? j then (A * 10 ^ j, B) else (A, B * 10 ^ (- j)).

(** The least [n] from [n] on with [x < 10 ^ n]. *)
Fixpoint magnitude (fuel : nat) (n : Z) : Z :=
  match fuel with
  | O => n
  | S fuel' =>
      let '(num, den) := scaled (- n) in
      if num <? den then n else magnitude fuel' (n + 1)
  end.

(** The digits [s] (with [10 ^ (k - 1) <= s <= 10 ^ k]) such that
    [s * 10 ^ (n - k)] converts back to [x], for the least [k] from [k]
    on; of two such [s] the one nearer to [x], the even one on a tie. *)
Fixpoint shortest (fuel : nat) (n k : Z) : Z * Z :=
  let '(num, den) := scaled (k - n) in
  let lo := num / den in
  let ok s := SFeqb (of_decimal false s (n - k)) x in
  let near := 2 * num - (2 * lo + 1) * den in
  let pick :=
    match ok lo, ok (lo + 1) with
    | true, true =>
        if near <? 0 then Some lo
        else if 0 <? near then Some (lo + 1)
        else Some (if Z.even lo then lo else lo + 1)
    | true, false => Some lo
    | false, true => Some (lo + 1)
    | false, false => None
    end in
  match pick, fuel with
  | Some s, _ => (s, k)
  | None, O => (lo, k)
  | None, S fuel' => shortest fuel' n (k + 1)
  end.
End Shortest.

Definition exponent_string (e : Z) : string :=
  ((if (e <? 0)%Z then "e-" else "e+") ++ decimal (Z.abs e))%string.

(** The string of a positive finite number given by the integers [n], [k]
    and [s] of Number::toString. *)
Definition render (s n k : Z) : string :=
  let ds := decimal s in
  if (k <=? n) && (n <=? 21) then (ds ++ zeros (Z.to_nat (n - k)))%string
  else if (0 <? n) && (n <=? 21) then
    (substring 0 (Z.to_nat n) ds ++ "."
       ++ substring (Z.to_nat n) (Z.to_nat (k - n)) ds)%string
  else if (- 6 <? n) && (n <=? 0) then
    ("0." ++ zeros (Z.to_nat (- n)) ++ ds)%string
  else if k =? 1 then (ds ++ exponent_string (n - 1))%string
  else
    (substring 0 1 ds ++ "." ++ substring 1 (Z.to_nat (k - 1)) ds
       ++ exponent_string (n - 1))%string.

Definition toString_positive (m : positive) (e : Z) : string :=
  let x := S754_finite false m e in
  let A := Z.shiftl (Zpos m) (Z.max e 0) in
  let B := Z.shiftl 1 (Z.max (- e) 0) in
  let n0 := magnitude A B 640 (- 325) in
  let '(s, k) := shortest x A B 17 n0 1 in
  (* the digits 10 ^ k stand for 1 at the next magnitude *)
  if s =? 10 ^ k then render (10 ^ (k - 1)) (n0 + 1) k
  else render s n0 k.

(** An integer below 2 ^ 53 in magnitude is a number and its neighbours
    are at least 1 apart, so its shortest digits are its decimal
    expansion: this case is answered directly. *)
Definition toString_finite (m : positive) (e : Z) : string :=
  match toZ (S754_finite false m e) with
  | Some z => if z <? 2 ^ 53 then decimal z else toString_positive m e
  | None => toString_positive m e
  end.

Definition toString (x : number) : string :=
  match x with
  | S754_nan => "NaN"%string
  | S754_zero _ => "0"%string
  | S754_infinity s => if s then "-Infinity"%string else "Infinity"%string
  | S754_finite s m e =>
      ((if s then "-" else "") ++ toString_finite m e)%string
  end.

End JsNumber.

(* ================================================================== *)
(** * Vocabulary for the rounding of quotients *)
(* ================================================================== *)

Module Rounding.

(** The record [mrs] of a truncated mantissa with its round and sticky bits
    describes the fraction [N / D]: the mantissa is the integer part, and
    the two bits tell where the remainder lies relative to one half. *)
Definition located (mrs : shr_record) (N D : Z) : Prop :=
  shr_m mrs = N / D /\
  match shr_r mrs, shr_s mrs with
  | false, false => N mod D = 0
  | false, true => 0 < 2 * (N mod D) < D
  | true, false => 2 * (N mod D) = D
  | true, true => D < 2 * (N mod D)
  end.

(** The last step of [binary_round_aux]: the sign is positive. *)
Definition finish (m e : Z) : JsNumber.number :=
  match m with
  | Z0 => S754_zero false
  | Zpos p => if e <=? 971 then S754_finite false p e else S754_infinity false
  | Zneg _ => S754_nan
  end.

End Rounding.

(* ================================================================== *)
(** * JavaScript strings *)
(* ================================================================== *)

(** Strings are sequences of characters of the standard library; the case
    mapping is that of the ASCII letters (the track data is ASCII). *)
Module JsString.

Definition is_upper (c : ascii) : bool :=
  let n := N_of_ascii c in ((65 <=? n) && (n <=? 90))%N.

Definition lower_char (c : ascii) : ascii :=
  if is_upper c then ascii_of_N (N_of_ascii c + 32) else c.

(** [s.toLowerCase()] *)
Fixpoint toLowerCase (s : string) : string :=
  match s with
  | EmptyString => EmptyString
  | String c s' => String (lower_char c) (toLowerCase s')
  end.

(** [s.includes(search)]: [search] occurs in [s] at some position. *)
Fixpoint includes (s search : string) : bool :=
  if String.prefix search s then true
  else
    match s with
    | EmptyString => false
    | String _ s' => includes s' search
    end.

(** [n] characters of [pad] repeated, continuing with [cur]. *)
Fixpoint filler (pad cur : string) (n : nat) : string :=
  match n with
  | O => EmptyString
  | S n' =>
      match cur with
      | String c r => String c (filler pad r n')
      | EmptyString =>
          match pad with
          | String c r => String c (filler pad r n')
          | EmptyString => EmptyString
          end
      end
  end.

(** [s.padStart(targetLength, padString)] *)
Definition padStart (s : string) (targetLength : nat) (padString : string)
  : string :=
  (filler padString padString (targetLength - String.length s) ++ s)%string.

End JsString.

(* ================================================================== *)
(** * The native playback handle *)
(* ================================================================== *)

(** The [HTMLAudioElement] behind [audioRef].  The component assigns three
    of its properties and calls two of its methods; the element is the
    browser's, so the model records what the component does to it: the
    assigned values and the sequence of method calls. *)
Module HTMLAudioElement.

Inductive method := play | pause.

Record t := mk {
  src : string;
  currentTime : JsNumber.number;
  duration : JsNumber.number;
  volume : JsNumber.number;
  calls : list method
}.

Definition set_src (v : string) (a : t) : t :=
  mk v (currentTime a) (duration a) (volume a) (calls a).
Definition set_currentTime (v : JsNumber.number) (a : t) : t :=
  mk (src a) v (duration a) (volume a) (calls a).
Definition set_volume (v : JsNumber.number) (a : t) : t :=
  mk (src a) (currentTime a) (duration a) v (calls a).
Definition call (m : method) (a : t) : t :=
  mk (src a) (currentTime a) (duration a) (volume a) (calls a ++ [m]).

End HTMLAudioElement.

(* ================================================================== *)
(** * The [Home] component (app/routes/home.tsx) *)
(* ================================================================== *)

Module Home.

Import JsNumber.
Local Open Scope string_scope.

Record Track := mkTrack {
  id : Z;
  title : string;
  artist : string;
  url : string
}.

Definition sampleTracks : list Track :=
  [ mkTrack 1 "Track 1" "Artist 1"
      "https://www.soundjay.com/misc/sounds/bell-ringing-05.wav";
    mkTrack 2 "Track 2" "Artist 2"
      "https://www.soundjay.com/misc/sounds/bell-ringing-05.wav";
    mkTrack 3 "Track 3" "Artist 3"
      "https://www.soundjay.com/misc/sounds/bell-ringing-05.wav" ].

(** The state cells of the component and the object behind [audioRef]
    ([None] for [audioRef.current === null]). *)
Record State := mkState {
  isPlaying : bool;
  currentTime : number;
  duration : number;
  volume : number;
  searchQuery : string;
  currentTrack : Track;
  audioRef : option HTMLAudioElement.t
}.

Definition setIsPlaying (v : bool) (st : State) : State :=
  mkState v (currentTime st) (duration st) (volume st) (searchQuery st)
    (currentTrack st) (audioRef st).
Definition setCurrentTime (v : number) (st : State) : State :=
  mkState (isPlaying st) v (duration st) (volume st) (searchQuery st)
    (currentTrack st) (audioRef st).
Definition setDuration (v : number) (st : State) : State :=
  mkState (isPlaying st) (currentTime st) v (volume st) (searchQuery st)
    (currentTrack st) (audioRef st).
Definition setVolume (v : number) (st : State) : State :=
  mkState (isPlaying st) (currentTime st) (duration st) v (searchQuery st)
    (currentTrack st) (audioRef st).
Definition setSearchQuery (v : string) (st : State) : State :=
  mkState (isPlaying st) (currentTime st) (duration st) (volume st) v
    (currentTrack st) (audioRef st).
Definition setCurrentTrack (v : Track) (st : State) : State :=
  mkState (isPlaying st) (currentTime st) (duration st) (volume st)
    (searchQuery st) v (audioRef st).
(** A mutation of the object behind [audioRef]. *)
Definition withAudio (a : HTMLAudioElement.t) (st : State) : State :=
  mkState (isPlaying st) (currentTime st) (duration st) (volume st)
    (searchQuery st) (currentTrack st) (Some a).

(** [useState(false)], [useState(0)], [useState(0)], [useState(0.7)],
    [useState("")], [useState(sampleTracks[0])], with the handle [audio]. *)
Definition initial (audio : option HTMLAudioElement.t) : State :=
  mkState false (of_Z 0) (of_Z 0) (of_decimal false 7 (- 1)) ""
    (mkTrack 1 "Track 1" "Artist 1"
       "https://www.soundjay.com/misc/sounds/bell-ringing-05.wav")
    audio.

(** The change event of an input element: [e.target.value]. *)
Record ChangeEvent := mkChange { target_value : string }.

(** ** Derived data *)

Definition trackMatches (searchQuery : string) (track : Track) : bool :=
  JsString.includes (JsString.toLowerCase (title track))
    (JsString.toLowerCase searchQuery)
  || JsString.includes (JsString.toLowerCase (artist track))
       (JsString.toLowerCase searchQuery).

Definition filteredTracks (searchQuery : string) : list Track :=
  filter (trackMatches searchQuery) sampleTracks.

(** ** Listeners installed by the effect *)

Definition updateTime (audio : HTMLAudioElement.t) (st : State) : State :=
  setCurrentTime (HTMLAudioElement.currentTime audio) st.
Definition updateDuration (audio : HTMLAudioElement.t) (st : State) : State :=
  setDuration (HTMLAudioElement.duration audio) st.
Definition handleEnded (st : State) : State :=
  setIsPlaying false st.

Inductive MediaEvent := timeupdate | loadedmetadata | ended.

(** The handle emits an event: the listener added for it runs.  (The
    effect adds no listener when the handle is absent.) *)
Definition emit (ev : MediaEvent) (st : State) : State :=
  match audioRef st with
  | None => st
  | Some audio =>
      match ev with
      | timeupdate => updateTime audio st
      | loadedmetadata => updateDuration audio st
      | ended => handleEnded st
      end
  end.

(** ** Event handlers *)

Definition togglePlay (st : State) : State :=
  match audioRef st with
  | Some audio =>
      let audio' :=
        if isPlaying st
        then HTMLAudioElement.call HTMLAudioElement.pause audio
        else HTMLAudioElement.call HTMLAudioElement.play audio in
      setIsPlaying (negb (isPlaying st)) (withAudio audio' st)
  | None => st
  end.

Definition handleSeek (e : ChangeEvent) (st : State) : State :=
  let time := parseFloat (target_value e) in
  match audioRef st with
  | Some audio =>
      setCurrentTime time
        (withAudio (HTMLAudioElement.set_currentTime time audio) st)
  | None => st
  end.

Definition handleVolumeChange (e : ChangeEvent) (st : State) : State :=
  let newVolume := parseFloat (target_value e) in
  let st1 := setVolume newVolume st in
  match audioRef st1 with
  | Some audio => withAudio (HTMLAudioElement.set_volume newVolume audio) st1
  | None => st1
  end.

Definition formatTime (time : number) : string :=
  let minutes := floor (div time (of_Z 60)) in
  let seconds := floor (rem time (of_Z 60)) in
  toString minutes ++ ":" ++ JsString.padStart (toString seconds) 2 "0".

Definition changeTrack (track : Track) (st : State) : State :=
  let st1 := setCurrentTime (of_Z 0)
               (setIsPlaying false (setCurrentTrack track st)) in
  match audioRef st1 with
  | Some audio => withAudio (HTMLAudioElement.set_src (url track) audio) st1
  | None => st1
  end.

(** [onChange] of the search box. *)
Definition handleSearch (e : ChangeEvent) (st : State) : State :=
  setSearchQuery (target_value e) st.

(** The operations a user can trigger. *)
Inductive Op :=
| OpTogglePlay
| OpSeek (e : ChangeEvent)
| OpVolumeChange (e : ChangeEvent)
| OpChangeTrack (track : Track)
| OpSearch (e : ChangeEvent).

Definition step (op : Op) (st : State) : State :=
  match op with
  | OpTogglePlay => togglePlay st
  | OpSeek e => handleSeek e st
  | OpVolumeChange e => handleVolumeChange e st
  | OpChangeTrack track => changeTrack track st
  | OpSearch e => handleSearch e st
  end.

(** ** Specification vocabulary *)




(** Two characters that are equal or the two cases of one letter. *)
Definition same_letter (a b : ascii) : Prop :=
  let x := N_of_ascii a in
  let y := N_of_ascii b in
  (x = y \/ (65 <= x <= 90 /\ y = x + 32) \/ (65 <= y <= 90 /\ x = y + 32))%N.

(** Equality of strings up to the case of letters. *)
Inductive ci_eq : string -> string -> Prop :=
| ci_nil : ci_eq EmptyString EmptyString
| ci_cons a b s t : same_letter a b -> ci_eq s t ->
                    ci_eq (String a s) (String b t).



(** The time display in exact arithmetic: [floor (t / 60)], a colon and
    [floor (t mod 60)] on two digits. *)
Definition two_digits (n : Z) : string :=
  if (n <? 10)%Z then "0" ++ decimal n else decimal n.

Definition exact_minutes (t : number) : Z := Qfloor (toQ t / 60).
Definition exact_seconds (t : number) : Z :=
  Qfloor (toQ t - 60 * inject_Z (exact_minutes t)).

Definition formatTime_exact (t : number) : string :=
  decimal (exact_minutes t) ++ ":" ++ two_digits (exact_seconds t).

(** ** Sample states *)

Definition audio0 : HTMLAudioElement.t :=
  HTMLAudioElement.mk
    "https://www.soundjay.com/misc/sounds/bell-ringing-05.wav"
    (of_Z 0) NaN (of_Z 1) [].

(** A time of 67553994410557496 seconds (60 * (2 ^ 50 + 1) - 4), which is
    a number: a multiple of 8 between 2 ^ 55 and 2 ^ 56. *)
Definition rounded_up : number := of_Z 67553994410557496.

(** After [loadedmetadata] of a track of 100 seconds. *)
Definition loaded100 : State :=
  setDuration (of_Z 100) (initial (Some audio0)).

(** ** Rendered values *)

(** ToBoolean of a number: [0], [-0] and NaN are falsy. *)
Definition truthy (x : number) : bool :=
  match x with
  | S754_zero _ | S754_nan => false
  | _ => true
  end.

(** [max={duration || 0}] of the progress slider. *)
Definition sliderMax (st : State) : number :=
  if truthy (duration st) then duration st else of_Z 0.

(** ** The effect: listeners on the handle *)

(** The three callbacks the effect creates. *)
Inductive Callback := cb_updateTime | cb_updateDuration | cb_handleEnded.

(** The event listener list of the handle, in the order of registration. *)
Definition Listeners : Type := list (MediaEvent * Callback).

Definition MediaEvent_eqb (a b : MediaEvent) : bool :=
  match a, b with
  | timeupdate, timeupdate | loadedmetadata, loadedmetadata
  | ended, ended => true
  | _, _ => false
  end.

Definition Callback_eqb (a b : Callback) : bool :=
  match a, b with
  | cb_updateTime, cb_updateTime | cb_updateDuration, cb_updateDuration
  | cb_handleEnded, cb_handleEnded => true
  | _, _ => false
  end.

Definition same_listener (ty : MediaEvent) (cb : Callback)
  (l : MediaEvent * Callback) : bool :=
  MediaEvent_eqb ty (fst l) && Callback_eqb cb (snd l).

(** [addEventListener]: appended, unless the same callback is already
    registered for the same event. *)
Definition addEventListener (ty : MediaEvent) (cb : Callback)
  (ls : Listeners) : Listeners :=
  if existsb (same_listener ty cb) ls then ls else (ls ++ [(ty, cb)])%list.

(** [removeEventListener]: the matching listener, if any, is removed. *)
Fixpoint removeEventListener (ty : MediaEvent) (cb : Callback)
  (ls : Listeners) : Listeners :=
  match ls with
  | [] => []
  | l :: r =>
      if same_listener ty cb l then r
      else l :: removeEventListener ty cb r
  end.

(** The body of [useEffect]: nothing without a handle ([if (!audio)
    return]), else the three listeners are added. *)
Definition effectSetup (st : State) (ls : Listeners) : Listeners :=
  match audioRef st with
  | None => ls
  | Some _ =>
      addEventListener ended cb_handleEnded
        (addEventListener loadedmetadata cb_updateDuration
           (addEventListener timeupdate cb_updateTime ls))
  end.

(** The function the effect returns, run when the view unmounts; the early
    return gives none. *)
Definition effectCleanup (st : State) (ls : Listeners) : Listeners :=
  match audioRef st with
  | None => ls
  | Some _ =>
      removeEventListener ended cb_handleEnded
        (removeEventListener loadedmetadata cb_updateDuration
           (removeEventListener timeupdate cb_updateTime ls))
  end.

Definition invoke (cb : Callback) (audio : HTMLAudioElement.t) (st : State)
  : State :=
  match cb with
  | cb_updateTime => updateTime audio st
  | cb_updateDuration => updateDuration audio st
  | cb_handleEnded => handleEnded st
  end.

(** The handle dispatches an event: the listeners registered for it run in
    order; each reads the handle as it is when it runs. *)
Fixpoint dispatchEvent (ev : MediaEvent) (ls : Listeners) (st : State)
  : State :=
  match ls with
  | [] => st
  | (ty, cb) :: r =>
      let st1 :=
        if MediaEvent_eqb ev ty then
          match audioRef st with
          | Some audio => invoke cb audio st
          | None => st
          end
        else st in
      dispatchEvent ev r st1
  end.

(** ** Sequences of actions *)

(** The browser moves the position of the element, or learns its duration,
    on its own. *)
Definition playback (t d : number) (st : State) : State :=
  match audioRef st with
  | Some a =>
      withAudio
        (HTMLAudioElement.mk (HTMLAudioElement.src a) t d
           (HTMLAudioElement.volume a) (HTMLAudioElement.calls a)) st
  | None => st
  end.

(** What can happen to a mounted view: an operation of the user, an event
    of the handle, or a change of the handle by the browser. *)
Inductive Action :=
| User (op : Op)
| Media (ev : MediaEvent)
| Browser (t d : number).

Definition act (a : Action) (st : State) : State :=
  match a with
  | User op => step op st
  | Media ev => emit ev st
  | Browser t d => playback t d st
  end.

Definition perform (l : list Action) (st : State) : State :=
  fold_left (fun s a => act a s) l st.

(** The track list renders [filteredTracks] only: a track can be selected
    when it is shown. *)
Definition enabled (a : Action) (st : State) : Prop :=
  match a with
  | User (OpChangeTrack track) => In track (filteredTracks (searchQuery st))
  | _ => True
  end.

Inductive Trace : State -> list Action -> State -> Prop :=
| trace_nil st : Trace st [] st
| trace_cons st a l st' :
    enabled a st -> Trace (act a st) l st' -> Trace st (a :: l) st'.

Definition isToggle (a : Action) : bool :=
  match a with
  | User OpTogglePlay => true
  | _ => false
  end.

(** A sequence of calls in which every [pause] directly follows a [play]. *)
Fixpoint paired_from (prev : option HTMLAudioElement.method)
  (l : list HTMLAudioElement.method) : bool :=
  match l with
  | [] => true
  | HTMLAudioElement.play :: r => paired_from (Some HTMLAudioElement.play) r
  | HTMLAudioElement.pause :: r =>
      match prev with
      | Some HTMLAudioElement.play =>
          paired_from (Some HTMLAudioElement.pause) r
      | _ => false
      end
  end.

Definition paired (l : list HTMLAudioElement.method) : bool :=
  paired_from None l.

(** The flag and the calls agree: the calls are paired and, while the flag
    is set, the last call was [play]. *)
Definition callsConsistent (st : State) : Prop :=
  match audioRef st with
  | None => True
  | Some a =>
      paired (HTMLAudioElement.calls a) = true
      /\ (isPlaying st = true ->
          last (HTMLAudioElement.calls a) HTMLAudioElement.pause
          = HTMLAudioElement.play)
  end.

(** The handle plays the active track. *)
Definition srcOfTrack (st : State) : Prop :=
  match audioRef st with
  | None => True
  | Some a => HTMLAudioElement.src a = url (currentTrack st)
  end.

(** The handle has the displayed volume. *)
Definition volumeInSync (st : State) : Prop :=
  match audioRef st with
  | None => True
  | Some a => HTMLAudioElement.volume a = volume st
  end.

End Home.

(* ================================================================== *)
(** * The remote-control API of the README *)
(* ================================================================== *)

Module ControlApi.

(** Modelled from the spec: the server and the desktop player it fronts
    (api_server.py) are not among the sources; the README gives for
    [POST /resume] "If paused -> resume playback, else throw error" and
    for [POST /pause] "If not paused -> pause playback, else throw error".
    The player is either paused or not, and has a current song, a queue
    and a volume from 0 to 100. *)
Record Player := mkPlayer {
  paused : bool;
  current : option string;
  queue : list string;
  volume : Z
}.

(** Modelled from the spec: the outcome of a request, which is carried out
    or throws an error ("else throw error"). *)
Inductive Outcome := done | thrown.

Definition set_paused (b : bool) (p : Player) : Player :=
  mkPlayer b (current p) (queue p) (volume p).


(** Modelled from the spec: [POST /pause], "If not paused -> pause
    playback, else throw error". *)
Definition pause (p : Player) : Player * Outcome :=
  if negb (paused p) then (set_paused true p, done) else (p, thrown).

End ControlApi.

(* ================================================================== *)
(** * Properties of the event handlers *)
(* ================================================================== *)

Import JsNumber Home.
Local Open Scope string_scope.

(** ** Play and pause *)

(** C3, as stated: in every state the toggle inverts the flag and makes one
    call on the handle.  It fails where there is no handle: the guard
    [if (audioRef.current)] skips the whole body. *)
Lemma togglePlay_without_handle_keeps_flag :
  ~ (forall st, isPlaying (togglePlay st) = negb (isPlaying st)).
Proof.
  intros H. specialize (H (initial None)). discriminate H.
Qed.

(** C3, amended: when the handle is present, the toggle inverts the
    is-playing flag and appends exactly one call to the handle's calls,
    [pause] when the flag was true and [play] when it was false; nothing
    else changes, on the handle or in the state. *)
Theorem togglePlay_with_handle :
  forall st audio,
    audioRef st = Some audio ->
    let called :=
      if isPlaying st then HTMLAudioElement.pause else HTMLAudioElement.play in
    togglePlay st =
      setIsPlaying (negb (isPlaying st))
        (withAudio (HTMLAudioElement.call called audio) st)
    /\ isPlaying (togglePlay st) = negb (isPlaying st)
    /\ option_map HTMLAudioElement.calls (audioRef (togglePlay st))
       = Some (HTMLAudioElement.calls audio ++ [called])%list.
Proof.
  intros st audio Hsome called. unfold togglePlay. rewrite Hsome.
  subst called. destruct (isPlaying st); repeat split; reflexivity.
Qed.

Lemma togglePlay_with_handle_witness :
  isPlaying (togglePlay (initial (Some audio0))) = true
  /\ option_map HTMLAudioElement.calls
       (audioRef (togglePlay (initial (Some audio0))))
     = Some [HTMLAudioElement.play].
Proof.
  pose proof (togglePlay_with_handle (initial (Some audio0)) audio0 eq_refl)
    as (_ & Hflag & Hcalls).
  split; [exact Hflag | exact Hcalls].
Defined.

(** ** Selecting a track *)

(** C5: selecting a track makes it the active track, resets the elapsed
    time to 0 and the is-playing flag to false, and sets the [src] of the
    handle to the track's URL; duration, volume and search string stay. *)
Theorem changeTrack_resets :
  forall track st,
    currentTrack (changeTrack track st) = track
    /\ currentTime (changeTrack track st) = of_Z 0
    /\ isPlaying (changeTrack track st) = false
    /\ audioRef (changeTrack track st)
       = option_map (HTMLAudioElement.set_src (url track)) (audioRef st)
    /\ option_map HTMLAudioElement.src (audioRef (changeTrack track st))
       = option_map (fun _ => url track) (audioRef st)
    /\ duration (changeTrack track st) = duration st
    /\ volume (changeTrack track st) = volume st
    /\ searchQuery (changeTrack track st) = searchQuery st.
Proof.
  intros track [playing time total vol query active [audio|]];
    cbn; repeat split; reflexivity.
Qed.

(** ** Volume *)


(** ** Absent handle *)

(** C8: with no handle, the toggle and the seek handler return the state as
    it is, while the volume handler still stores the new volume (and changes
    nothing else). *)
Theorem handlers_without_handle :
  forall st,
    audioRef st = None ->
    togglePlay st = st
    /\ (forall e, handleSeek e st = st)
    /\ (forall e, handleVolumeChange e st
                  = setVolume (parseFloat (target_value e)) st)
    /\ (forall e, volume (handleVolumeChange e st)
                  = parseFloat (target_value e)).
Proof.
  intros [playing time total vol query active ref] Hnone.
  cbn in Hnone. subst ref.
  unfold togglePlay, handleSeek, handleVolumeChange.
  repeat split; reflexivity.
Qed.

Lemma handlers_without_handle_witness :
  togglePlay (initial None) = initial None
  /\ handleSeek (mkChange "12") (initial None) = initial None
  /\ volume (handleVolumeChange (mkChange "0.3") (initial None))
     = parseFloat "0.3".
Proof.
  pose proof (handlers_without_handle (initial None) eq_refl)
    as (Htoggle & Hseek & _ & Hvol).
  split; [exact Htoggle | split; [apply Hseek | apply Hvol]].
Defined.

(** ** End of playback *)

(** C9: when the handle emits [ended], the is-playing flag becomes false and
    elapsed time, duration, volume, active track, search string and the
    handle are as before. *)
Theorem ended_clears_flag :
  forall st audio,
    audioRef st = Some audio ->
    emit ended st = handleEnded st
    /\ isPlaying (emit ended st) = false
    /\ currentTime (emit ended st) = currentTime st
    /\ duration (emit ended st) = duration st
    /\ volume (emit ended st) = volume st
    /\ currentTrack (emit ended st) = currentTrack st
    /\ searchQuery (emit ended st) = searchQuery st
    /\ audioRef (emit ended st) = audioRef st.
Proof.
  intros [playing time total vol query active ref] audio Hsome.
  cbn in Hsome. subst ref. repeat split; reflexivity.
Qed.

Lemma ended_clears_flag_witness :
  isPlaying (emit ended (togglePlay (initial (Some audio0)))) = false.
Proof.
  exact (proj1 (proj2
    (ended_clears_flag (togglePlay (initial (Some audio0)))
       (HTMLAudioElement.call HTMLAudioElement.play audio0) eq_refl))).
Defined.

(** ** Seeking *)




(** ** The range invariant *)





(* ================================================================== *)
(** * Properties of the remote-control API *)
(* ================================================================== *)


(* ================================================================== *)
(** * Properties of the track filter *)
(* ================================================================== *)

Section Strings.

Lemma prefix_app : forall p s,
  String.prefix p s = true <-> exists post, s = p ++ post.
Proof.
  induction p as [|c p IH]; intros s.
  - split; [intros _; exists s; reflexivity | destruct s; reflexivity].
  - destruct s as [|d s]; cbn.
    + split; [discriminate | intros [post H]; discriminate H].
    + destruct (ascii_dec c d) as [->|Hne].
      * rewrite IH. split; intros [post H]; exists post.
        -- cbn. now rewrite H.
        -- cbn in H. now injection H.
      * split; [discriminate|].
        intros [post H]. cbn in H. injection H as H1 _. congruence.
Qed.

Lemma includes_app : forall s search,
  JsString.includes s search = true
  <-> exists pre post, s = pre ++ search ++ post.
Proof.
  induction s as [|c s IH]; intros search; cbn [JsString.includes].
  - destruct (String.prefix search "") eqn:Hp.
    + split; [intros _|reflexivity].
      apply prefix_app in Hp as [post H]. exists "", post. exact H.
    + split; [discriminate|].
      intros (pre & post & H). destruct pre as [|d pre]; [|discriminate H].
      cbn in H. assert (String.prefix search "" = true)
        by (apply prefix_app; eauto). congruence.
  - destruct (String.prefix search (String c s)) eqn:Hp.
    + split; [intros _|reflexivity].
      apply prefix_app in Hp as [post H]. exists "", post. exact H.
    + rewrite IH. split.
      * intros (pre & post & H). exists (String c pre), post.
        cbn. now rewrite H.
      * intros (pre & post & H). destruct pre as [|d pre].
        -- cbn in H. assert (String.prefix search (String c s) = true)
             by (apply prefix_app; eauto). congruence.
        -- cbn in H. injection H as _ H. eauto.
Qed.

Lemma N_of_lower_char : forall a,
  N_of_ascii (JsString.lower_char a)
  = (if JsString.is_upper a then N_of_ascii a + 32 else N_of_ascii a)%N.
Proof.
  intros a. unfold JsString.lower_char.
  destruct (JsString.is_upper a) eqn:Hup; [|reflexivity].
  apply N_ascii_embedding. unfold JsString.is_upper in Hup.
  apply andb_true_iff in Hup as [_ Hhi]. apply N.leb_le in Hhi. lia.
Qed.

Lemma lower_char_same_letter : forall a b,
  JsString.lower_char a = JsString.lower_char b <-> same_letter a b.
Proof.
  intros a b. unfold same_letter.
  assert (Hinj : JsString.lower_char a = JsString.lower_char b
                 <-> N_of_ascii (JsString.lower_char a)
                     = N_of_ascii (JsString.lower_char b)).
  { split; [congruence|]. intros H.
    rewrite <- (ascii_N_embedding (JsString.lower_char a)), H.
    apply ascii_N_embedding. }
  rewrite Hinj, !N_of_lower_char. unfold JsString.is_upper.
  destruct (65 <=? N_of_ascii a)%N eqn:A1;
    destruct (N_of_ascii a <=? 90)%N eqn:A2;
    destruct (65 <=? N_of_ascii b)%N eqn:B1;
    destruct (N_of_ascii b <=? 90)%N eqn:B2; cbn [andb];
    repeat match goal with
           | H : (_ <=? _)%N = true |- _ => apply N.leb_le in H
           | H : (_ <=? _)%N = false |- _ => apply N.leb_gt in H
           end; lia.
Qed.

Lemma toLowerCase_ci_eq : forall s t,
  JsString.toLowerCase s = JsString.toLowerCase t <-> ci_eq s t.
Proof.
  induction s as [|a s IH]; intros [|b t]; cbn.
  - split; [constructor | reflexivity].
  - split; [discriminate | inversion 1].
  - split; [discriminate | inversion 1].
  - split.
    + intros H. injection H as Hc Hs.
      constructor; [now apply lower_char_same_letter | now apply IH].
    + inversion 1; subst. f_equal;
        [now apply lower_char_same_letter | now apply IH].
Qed.

Lemma toLowerCase_app : forall s t,
  JsString.toLowerCase (s ++ t)
  = JsString.toLowerCase s ++ JsString.toLowerCase t.
Proof.
  induction s as [|a s IH]; intros t; cbn; [reflexivity | now rewrite IH].
Qed.




End Strings.


(* ================================================================== *)
(** * Properties of the number operations *)
(* ================================================================== *)

Import Rounding.
Local Open Scope Z_scope.

(** ** Digit counts *)

(** The digit count of the float library is the binary logarithm plus one. *)
Lemma digits2_log2 : forall p, Zpos (digits2_pos p) = Z.log2 (Zpos p) + 1.
Proof.
  induction p as [p IH|p IH|]; cbn [digits2_pos]; try reflexivity.
  - rewrite Pos2Z.inj_succ, IH.
    change (Z.log2 (Zpos p~1)) with (Zpos (Pos.size p)).
    destruct p; cbn; lia.
  - rewrite Pos2Z.inj_succ, IH.
    change (Z.log2 (Zpos p~0)) with (Zpos (Pos.size p)).
    destruct p; cbn; lia.
Qed.

Lemma digits2_bounds : forall p,
  2 ^ (Zpos (digits2_pos p) - 1) <= Zpos p < 2 ^ Zpos (digits2_pos p).
Proof.
  intros p. rewrite digits2_log2.
  replace (Z.log2 (Zpos p) + 1 - 1) with (Z.log2 (Zpos p)) by lia.
  apply Z.log2_spec. lia.
Qed.

Lemma digits2_unique : forall p d,
  2 ^ (d - 1) <= Zpos p < 2 ^ d -> Zpos (digits2_pos p) = d.
Proof.
  intros p d H. rewrite digits2_log2.
  assert (0 < d).
  { destruct (Z.le_gt_cases d 0) as [Hle|]; [|assumption].
    assert (2 ^ d <= 2 ^ 0) by (apply Z.pow_le_mono_r; lia).
    change (2 ^ 0) with 1 in *. lia. }
  rewrite (Z.log2_unique (Zpos p) (d - 1)); try lia.
  replace (Z.succ (d - 1)) with d by lia. exact H.
Qed.

(** ** Shifting and rounding a located mantissa *)

Lemma div_mod_pack : forall N D q r,
  0 < D -> N = D * q + r -> 0 <= r < D -> N / D = q /\ N mod D = r.
Proof.
  intros N D q r HD HN Hr. split.
  - symmetry. apply (Z.div_unique N D q r); [left; exact Hr | exact HN].
  - symmetry. apply (Z.mod_unique N D q r); [left; exact Hr | exact HN].
Qed.

(** One shift to the right halves the unit: the record then describes the
    same fraction over twice the denominator. *)
Lemma shr_1_located : forall mrs N D,
  0 <= N -> 0 < D -> located mrs N D -> located (shr_1 mrs) N (2 * D).
Proof.
  intros [m r s] N D HN HD [Hm Hloc]. cbn [shr_m shr_r shr_s] in Hm, Hloc.
  pose proof (Z.div_mod N D ltac:(lia)) as Heq.
  pose proof (Z.mod_pos_bound N D HD) as Hrho.
  rewrite <- Hm in Heq.
  set (rho := N mod D) in *.
  assert (Hm0 : 0 <= m) by (rewrite Hm; apply Z.div_pos; lia).
  unfold located.
  destruct m as [|[p|p|]|p]; try lia; cbn [shr_1 shr_m shr_r shr_s].
  - destruct (div_mod_pack N (2 * D) 0 rho ltac:(lia) ltac:(lia) ltac:(lia))
      as [-> ->].
    split; [reflexivity|]. destruct r, s; cbn [orb]; lia.
  - destruct (div_mod_pack N (2 * D) (Zpos p) (D + rho)
                ltac:(lia) ltac:(lia) ltac:(lia)) as [-> ->].
    split; [reflexivity|]. destruct r, s; cbn [orb]; lia.
  - destruct (div_mod_pack N (2 * D) (Zpos p) rho
                ltac:(lia) ltac:(lia) ltac:(lia)) as [-> ->].
    split; [reflexivity|]. destruct r, s; cbn [orb]; lia.
  - destruct (div_mod_pack N (2 * D) 0 (D + rho)
                ltac:(lia) ltac:(lia) ltac:(lia)) as [-> ->].
    split; [reflexivity|]. destruct r, s; cbn [orb]; lia.
Qed.

Lemma iter_shr_located : forall p mrs N D,
  0 <= N -> 0 < D -> located mrs N D ->
  located (iter_pos shr_1 p mrs) N (D * 2 ^ Zpos p).
Proof.
  induction p as [p IH|p IH|]; intros mrs N D HN HD Hloc; cbn [iter_pos].
  - assert (Hp : 0 < 2 ^ Zpos p) by (apply Z.pow_pos_nonneg; lia).
    replace (D * 2 ^ Zpos p~1) with (2 * D * 2 ^ Zpos p * 2 ^ Zpos p).
    + apply IH; try nia. apply IH; try lia. now apply shr_1_located.
    + replace (Zpos p~1) with (Zpos p + Zpos p + 1) by lia.
      rewrite !Z.pow_add_r by lia. ring.
  - assert (Hp : 0 < 2 ^ Zpos p) by (apply Z.pow_pos_nonneg; lia).
    replace (D * 2 ^ Zpos p~0) with (D * 2 ^ Zpos p * 2 ^ Zpos p).
    + apply IH; try nia. now apply IH.
    + replace (Zpos p~0) with (Zpos p + Zpos p) by lia.
      rewrite !Z.pow_add_r by lia. ring.
  - change (2 ^ 1) with 2. rewrite Z.mul_comm. now apply shr_1_located.
Qed.

Lemma shr_located : forall mrs N D e n,
  0 <= N -> 0 < D -> located mrs N D ->
  located (fst (shr mrs e n)) N (D * 2 ^ Z.max n 0)
  /\ snd (shr mrs e n) = e + Z.max n 0.
Proof.
  intros mrs N D e n HN HD Hloc. destruct n as [|p|p]; cbn [shr fst snd].
  - rewrite Z.max_id. change (2 ^ 0) with 1. rewrite Z.mul_1_r, Z.add_0_r. auto.
  - rewrite Z.max_l by lia. split; [now apply iter_shr_located | reflexivity].
  - rewrite Z.max_r by lia. change (2 ^ 0) with 1.
    rewrite Z.mul_1_r, Z.add_0_r. auto.
Qed.

Lemma located_exact : forall m, located (shr_record_of_loc m loc_Exact) m 1.
Proof.
  intros m. split; cbn; [now rewrite Z.div_1_r | apply Z.mod_1_r].
Qed.

(** The location computed from the remainder of a division describes the
    quotient. *)
Lemma new_location_located : forall D q r,
  0 < D -> 0 <= r < D ->
  located (shr_record_of_loc q (new_location D r)) (D * q + r) D.
Proof.
  intros D q r HD Hr.
  destruct (div_mod_pack (D * q + r) D q r HD eq_refl Hr) as [Hq Hm].
  unfold located. rewrite Hq, Hm. unfold new_location.
  destruct (Z.even D) eqn:Hev.
  - unfold new_location_even. destruct (Z.eqb_spec r 0) as [->|Hne].
    + cbn. auto.
    + destruct (Z.compare_spec (2 * r) D);
        cbn [shr_record_of_loc shr_m shr_r shr_s]; split; try reflexivity; lia.
  - unfold new_location_odd. destruct (Z.eqb_spec r 0) as [->|Hne].
    + cbn. auto.
    + assert (Hodd : Z.odd D = true) by (rewrite <- Z.negb_even, Hev; reflexivity).
      apply Z.odd_spec in Hodd as [k Hk].
      destruct (Z.compare_spec (2 * r + 1) D);
        cbn [shr_record_of_loc shr_m shr_r shr_s]; split; try reflexivity; lia.
Qed.

(** Rounding to nearest even of a located value keeps the integer part or
    adds one, and adds one only from the middle on. *)
Lemma round_nearest_even_located : forall mrs N D,
  0 < D -> located mrs N D ->
  let m := round_nearest_even (shr_m mrs) (loc_of_shr_record mrs) in
  m = N / D \/ (m = N / D + 1 /\ D <= 2 * (N mod D)).
Proof.
  intros [m r s] N D HD [Hm Hloc]. cbn [shr_m shr_r shr_s] in *.
  destruct r, s; cbn [loc_of_shr_record round_nearest_even shr_m]; subst m.
  - right. split; [reflexivity | lia].
  - destruct (Z.even (N / D)); [left; reflexivity | right; split; [reflexivity | lia]].
  - left; reflexivity.
  - left; reflexivity.
Qed.

Lemma fexp_eq : forall x, fexp prec emax x = Z.max (x - 53) (-1074).
Proof. reflexivity. Qed.


(** [binary_round_aux] on a located mantissa: the mantissa is shifted to
    its canonical exponent, rounded to the integer part or one more, and
    shifted once more if rounding added a digit. *)
Lemma binary_round_aux_located : forall q e loc N D,
  0 <= N -> 0 < D ->
  located (shr_record_of_loc q loc) N D ->
  let n := Z.max (fexp prec emax (Zdigits2 q + e) - e) 0 in
  exists m2,
    (m2 = N / (D * 2 ^ n)
     \/ (m2 = N / (D * 2 ^ n) + 1
         /\ D * 2 ^ n <= 2 * (N mod (D * 2 ^ n))))
    /\ let n2 := Z.max (fexp prec emax (Zdigits2 m2 + (e + n)) - (e + n)) 0 in
       binary_round_aux prec emax false q e loc
       = finish (m2 / 2 ^ n2) (e + n + n2).
Proof.
  intros q e loc N D HN HD Hloc n.
  assert (Hpn : 0 < 2 ^ n) by (apply Z.pow_pos_nonneg; lia).
  unfold binary_round_aux, shr_fexp.
  pose proof (shr_located _ N D e (fexp prec emax (Zdigits2 q + e) - e)
                HN HD Hloc) as [H1 H1e].
  destruct (shr (shr_record_of_loc q loc) e
              (fexp prec emax (Zdigits2 q + e) - e)) as [mrs1 e1].
  cbn [fst snd] in H1, H1e. fold n in H1, H1e. subst e1.
  pose proof (round_nearest_even_located mrs1 N (D * 2 ^ n) ltac:(nia) H1)
    as Hm2. cbv zeta in Hm2.
  set (m2 := round_nearest_even (shr_m mrs1) (loc_of_shr_record mrs1)) in *.
  exists m2. split; [exact Hm2|].
  assert (H0 : 0 <= N / (D * 2 ^ n)) by (apply Z.div_pos; nia).
  assert (Hm2pos : 0 <= m2) by lia.
  pose proof (shr_located _ m2 1 (e + n)
                (fexp prec emax (Zdigits2 m2 + (e + n)) - (e + n))
                Hm2pos ltac:(lia) (located_exact m2)) as [[H2 _] H2e].
  destruct (shr (shr_record_of_loc m2 loc_Exact) (e + n)
              (fexp prec emax (Zdigits2 m2 + (e + n)) - (e + n)))
    as [mrs2 e2].
  cbn [fst snd] in H2, H2e. subst e2. rewrite H2, Z.mul_1_l.
  cbv zeta. unfold finish.
  destruct (m2 / 2 ^ _); reflexivity.
Qed.

(** The integer part of the rounded result, when its exponent is negative. *)
Lemma floor_finish : forall m2 e1 n2,
  0 <= m2 -> 0 <= n2 -> e1 + n2 < 0 ->
  floor (finish (m2 / 2 ^ n2) (e1 + n2)) = of_Z (m2 / 2 ^ (- e1)).
Proof.
  intros m2 e1 n2 Hm Hn He.
  assert (Hp2 : 0 < 2 ^ n2) by (apply Z.pow_pos_nonneg; lia).
  assert (Hsplit : m2 / 2 ^ (- e1) = m2 / 2 ^ n2 / 2 ^ (- (e1 + n2))).
  { rewrite Z.div_div by (try apply Z.pow_pos_nonneg; lia).
    rewrite <- Z.pow_add_r by lia. f_equal. f_equal. lia. }
  rewrite Hsplit. unfold finish.
  destruct (m2 / 2 ^ n2) as [|p|p] eqn:Hq.
  - rewrite Z.div_0_l by (apply Z.pow_nonzero; lia). reflexivity.
  - replace (e1 + n2 <=? 971) with true by (symmetry; apply Z.leb_le; lia).
    unfold floor.
    replace (0 <=? e1 + n2) with false by (symmetry; apply Z.leb_gt; lia).
    cbn [signed]. now rewrite Z.shiftr_div_pow2 by lia.
  - assert (0 <= m2 / 2 ^ n2) by (apply Z.div_pos; lia). lia.
Qed.

(** ** Division by 60 *)

Lemma Zdigits2_bounds : forall q,
  0 <= q ->
  (q = 0 /\ Zdigits2 q = 0)
  \/ (0 < Zdigits2 q /\ 2 ^ (Zdigits2 q - 1) <= q < 2 ^ Zdigits2 q).
Proof.
  intros [|p|p] Hq; [left; split; reflexivity | right | lia].
  cbn [Zdigits2]. split; [lia | apply digits2_bounds].
Qed.

Lemma pow2_lt_inv : forall a b, 0 <= b -> 2 ^ a < 2 ^ b -> a < b.
Proof.
  intros a b Hb H. destruct (Z.lt_ge_cases a b) as [|Hge]; [assumption|].
  assert (2 ^ b <= 2 ^ a) by (apply Z.pow_le_mono_r; lia). lia.
Qed.

Lemma of_Z_60 : of_Z 60 = S754_finite false 8444249301319680 (-47).
Proof. reflexivity. Qed.

(** What validity says about a mantissa and its exponent. *)
Lemma bounded_inv : forall mx ex,
  bounded prec emax mx ex = true ->
  let d := Zpos (digits2_pos mx) in
  0 < d <= 53 /\ -1074 <= ex <= 971 /\ (d = 53 \/ ex = -1074)
  /\ 2 ^ (d - 1) <= Zpos mx < 2 ^ d /\ Zpos mx < 2 ^ 53.
Proof.
  intros mx ex Hb d. unfold bounded, canonical_mantissa in Hb.
  apply andb_true_iff in Hb as [Hc He].
  apply Z.eqb_eq in Hc. apply Z.leb_le in He. rewrite fexp_eq in Hc.
  fold d in Hc. change (emax - prec) with 971 in He.
  pose proof (digits2_bounds mx) as Hd. fold d in Hd.
  assert (Hd53 : 0 < d <= 53) by (unfold d in *; lia).
  assert (2 ^ d <= 2 ^ 53) by (apply Z.pow_le_mono_r; lia).
  repeat split; try lia.
Qed.

(** The arithmetic heart: a quotient [mx * P / D1] with a normalised
    integer part [a], rounded up from the middle, does not reach a multiple
    of [E1] when [mx] has at most 53 bits and the scales agree. *)
Lemma round_up_stays : forall mx P Y D1 E1 a,
  0 < P -> 0 < D1 -> 0 < E1 -> 0 <= a ->
  D1 * E1 = P * Y ->
  mx < 2 ^ 53 -> 2 ^ 52 <= a ->
  D1 * a <= mx * P < D1 * (a + 1) ->
  D1 <= 2 * (mx * P - D1 * a) ->
  (a + 1) / E1 = a / E1.
Proof.
  intros mx P Y D1 E1 a HP HD1 HE1 Ha HW Hmx Hnorm Hfloor Hhalf.
  pose proof (Z.div_mod a E1 ltac:(lia)) as Hdm.
  pose proof (Z.mod_pos_bound a E1 HE1) as Hmb.
  set (k0 := a / E1) in *. set (r1 := a mod E1) in *.
  destruct (Z.lt_ge_cases (r1 + 1) E1) as [Hlt|Hge].
  { apply (div_mod_pack (a + 1) E1 k0 (r1 + 1)); lia. }
  exfalso.
  assert (Hj : a + 1 = E1 * (k0 + 1)) by lia.
  assert (Hup : D1 * (a + 1) = Y * (k0 + 1) * P).
  { rewrite Hj, Z.mul_assoc, HW. ring. }
  assert (H1 : mx * P < Y * (k0 + 1) * P) by (rewrite <- Hup; lia).
  apply Z.mul_lt_mono_pos_r in H1; [|lia].
  assert (H2 : (mx + 1) * P <= Y * (k0 + 1) * P)
    by (apply Z.mul_le_mono_nonneg_r; lia).
  rewrite <- Hup in H2.
  assert (Hwide : 2 * P <= D1) by lia.
  assert (D1 * 2 ^ 52 <= D1 * a) by (apply Z.mul_le_mono_nonneg_l; lia).
  assert (mx * P < 2 ^ 53 * P) by (apply Z.mul_lt_mono_pos_r; lia).
  lia.
Qed.

(** The quotient by 60 of a valid positive number below
    67553994410557496 = 8444249301319687 * 2 ^ 3, rounded to nearest, has
    the integer part of the exact quotient. *)
Lemma floor_div_60 : forall mx ex,
  bounded prec emax mx ex = true ->
  ex <= 2 \/ (ex = 3 /\ Zpos mx < 8444249301319687) ->
  floor (div (S754_finite false mx ex) (of_Z 60))
  = of_Z (Z.shiftl (Zpos mx) ex / 60).
Proof.
  intros mx ex Hb Hex.
  destruct (bounded_inv mx ex Hb) as (Hd53 & Hexr & Hcase & Hd & Hmx53).
  clear Hb. set (d1 := Zpos (digits2_pos mx)) in *.
  assert (Hex3 : ex <= 3) by (clear - Hex; lia).
  rewrite of_Z_60. unfold div, SFdiv, SFdiv_core_binary. cbn [xorb].
  change (Zdigits2 (Zpos 8444249301319680)) with 53.
  cbn [Zdigits2]. fold d1. rewrite fexp_eq.
  set (my := 8444249301319680).
  assert (Hmy : 0 < my) by reflexivity.
  set (e' := Z.min (Z.max (d1 + ex - (53 + -47) - 53) (-1074)) (ex - -47)).
  assert (He' : -1074 <= e' <= -3 /\ d1 + ex - 59 <= e'
                /\ (e' = -1074 \/ e' = d1 + ex - 59))
    by (unfold e'; clear - Hd53 Hexr Hex3; lia).
  clearbody e'. destruct He' as (He'r & He'd & He'c).
  set (s := ex - -47 - e').
  assert (Hs : s = ex + 47 - e' /\ 0 < s <= 53 /\ d1 + s <= 106)
    by (unfold s; clear - Hd53 Hexr Hex3 Hcase He'r He'd He'c; lia).
  clearbody s. destruct Hs as (Hsdef & Hs & Hds).
  destruct s as [|p|p] eqn:Es; try (exfalso; clear - Hs; lia).
  rewrite <- Es in *. clear p Es.
  rewrite Z.shiftl_mul_pow2 by (clear - Hs; lia).
  set (P := 2 ^ s) in *.
  assert (HP : 0 < P) by (apply Z.pow_pos_nonneg; clear - Hs; lia).
  set (N := Z.pos mx * P).
  assert (HN : 0 <= N) by (unfold N; clear - HP; nia).
  assert (Hq : fst (IntDef.Z.div_eucl N my) = N / my) by reflexivity.
  assert (Hr : snd (IntDef.Z.div_eucl N my) = N mod my) by reflexivity.
  destruct (IntDef.Z.div_eucl N my) as [q r]. cbn [fst snd] in Hq, Hr.
  pose proof (Z.mod_pos_bound N my Hmy) as Hrb. rewrite <- Hr in Hrb.
  pose proof (new_location_located my q r Hmy Hrb) as Hloc.
  replace (my * q + r) with N in Hloc
    by (rewrite Hq, Hr; apply Z.div_mod; clear; unfold my; lia).
  destruct (binary_round_aux_located q e' (new_location my r) N my HN Hmy Hloc)
    as (m2 & Hm2 & Hres).
  cbv zeta in Hres. rewrite Hres. clear Hres Hloc Hr Hrb r.
  rewrite !fexp_eq in *.
  (* size of the quotient *)
  assert (HN106 : N < 2 ^ 106).
  { assert (2 ^ d1 * P <= 2 ^ 106).
    { unfold P. rewrite <- Z.pow_add_r by (clear - Hd53 Hs; lia).
      apply Z.pow_le_mono_r; clear - Hds; lia. }
    unfold N. clear - H Hd HP. nia. }
  assert (Hq0 : 0 <= q) by (rewrite Hq; apply Z.div_pos; assumption).
  assert (Hq54 : q < 2 ^ 54).
  { rewrite Hq. apply Z.div_lt_upper_bound; [assumption|].
    clear - HN106. unfold my. lia. }
  assert (Hq52 : -1074 < e' -> 2 ^ 52 <= q).
  { intros Hgt. rewrite Hq. apply Z.div_le_lower_bound; [assumption|].
    assert (2 ^ (d1 - 1) * P = 2 ^ 105).
    { unfold P. rewrite <- Z.pow_add_r by (clear - Hd53 Hs; lia).
      f_equal. clear - Hsdef He'c Hgt. lia. }
    unfold N, my. clear - H Hd HP. nia. }
  pose proof (Zdigits2_bounds q Hq0) as Hdq0.
  set (dq := Zdigits2 q) in *.
  assert (Hdq : 0 <= dq <= 54 /\ (2 ^ 52 <= q -> 53 <= dq)
                /\ (0 < dq -> 2 ^ (dq - 1) <= q < 2 ^ dq)).
  { destruct Hdq0 as [[Hz Hdz]|[Hpos Hbq]].
    - rewrite Hdz. clear - Hz. repeat split; try lia.
    - assert (dq - 1 < 54) by (apply pow2_lt_inv; clear - Hbq Hq54; lia).
      repeat split; try (clear - H Hpos Hbq; lia).
      intros H52.
      assert (52 < dq) by (apply pow2_lt_inv; clear - Hbq H52 Hpos; lia).
      clear - H0; lia. }
  destruct Hdq as (Hdq54 & Hdq53 & Hdqb).
  set (n := Z.max (Z.max (dq + e' - 53) (-1074) - e') 0) in *.
  assert (Hn : (n = 0 /\ dq <= 53) \/ (n = 1 /\ dq = 54))
    by (unfold n; clear - Hdq54 He'r; lia).
  clearbody n.
  assert (Hpn : 0 < 2 ^ n /\ 2 ^ n * 2 ^ 52 = 2 ^ (n + 52)
                /\ 2 ^ n * 2 ^ 53 = 2 ^ (n + 53)).
  { clear - Hn. destruct Hn as [[-> _]|[-> _]]; repeat split; reflexivity. }
  destruct Hpn as (Hpn & Hpn52 & Hpn53).
  set (D1 := my * 2 ^ n) in *.
  assert (HD1 : 0 < D1) by (unfold D1; clear - Hmy Hpn; nia).
  set (a := N / D1) in *.
  assert (Haq : a = q / 2 ^ n).
  { unfold a, D1.
    rewrite <- Z.div_div by (first [assumption | clear - Hmy; lia]).
    now rewrite Hq. }
  assert (Ha0 : 0 <= a) by (apply Z.div_pos; assumption).
  assert (Ha53 : a < 2 ^ 53).
  { rewrite Haq. apply Z.div_lt_upper_bound; [assumption|].
    rewrite Hpn53.
    destruct Hdq0 as [[Hz _]|[Hpos [_ Hbq]]].
    - rewrite Hz. apply Z.pow_pos_nonneg; clear - Hn; lia.
    - eapply Z.lt_le_trans; [exact Hbq|].
      apply Z.pow_le_mono_r; clear - Hn; lia. }
  assert (Ha52 : 53 <= dq -> 2 ^ 52 <= a).
  { intros H53. rewrite Haq. apply Z.div_le_lower_bound; [assumption|].
    rewrite Hpn52. specialize (Hdqb ltac:(clear - H53; lia)).
    replace (n + 52) with (dq - 1) by (clear - Hn H53; lia).
    apply Hdqb. }
  assert (Hm2b : 0 <= m2 <= 2 ^ 53) by (clear - Hm2 Ha0 Ha53; lia).
  set (n2 := Z.max (Z.max (Zdigits2 m2 + (e' + n) - 53) (-1074) - (e' + n)) 0).
  assert (Hn2 : 0 <= n2 <= 1).
  { pose proof (Zdigits2_bounds m2 ltac:(clear - Hm2b; lia))
      as [[_ Hz]|[Hpos Hbm]].
    - unfold n2. rewrite Hz. clear - Hn He'r. lia.
    - assert (Zdigits2 m2 - 1 < 54)
        by (apply pow2_lt_inv; clear - Hbm Hm2b; lia).
      unfold n2. clear - H Hn He'r. lia. }
  clearbody n2.
  rewrite floor_finish by (clear - Hm2b Hn2 Hn He'r Hex3; lia). f_equal.
  set (E1 := 2 ^ (- (e' + n))).
  assert (HE1 : 0 < E1)
    by (apply Z.pow_pos_nonneg; clear - Hn He'r Hex3; lia).
  pose proof (Z.div_mod N D1 ltac:(clear - HD1; lia)) as HNd. fold a in HNd.
  pose proof (Z.mod_pos_bound N D1 HD1) as Hrho.
  destruct Hex as [Hex|[-> Hmx0]].
  - (* the number is an integer multiple of 1/4 of 15 * 2 ^ (2 - ex) *)
    set (Y := 15 * 2 ^ (2 - ex)).
    assert (HY : 0 < Y).
    { assert (0 < 2 ^ (2 - ex)) by (apply Z.pow_pos_nonneg; clear - Hex; lia).
      unfold Y. clear - H. lia. }
    assert (HW : D1 * E1 = P * Y).
    { assert (P1 : 2 ^ 49 * (2 ^ n * E1) = 2 ^ (49 - e')).
      { unfold E1. rewrite <- !Z.pow_add_r by (clear - Hn He'r Hex; lia).
        f_equal. clear. lia. }
      assert (P2 : P * 2 ^ (2 - ex) = 2 ^ (49 - e')).
      { unfold P. rewrite <- !Z.pow_add_r by (clear - Hs Hex; lia).
        f_equal. clear - Hsdef. lia. }
      unfold D1, my, Y. clear - P1 P2. lia. }
    assert (Hbase : a / E1 = Z.shiftl (Z.pos mx) ex / 60).
    { unfold a.
      rewrite Z.div_div by (first [assumption | clear - HD1; lia]).
      rewrite HW. unfold N. rewrite (Z.mul_comm (Z.pos mx)).
      rewrite Z.div_mul_cancel_l by (clear - HP HY; lia).
      destruct (Z.le_gt_cases ex 0) as [Hneg|Hpos].
      - rewrite Z.shiftl_div_pow2 by assumption.
        rewrite Z.div_div
          by (first [apply Z.pow_nonzero | idtac]; clear - Hneg; lia).
        f_equal. unfold Y.
        replace (2 - ex) with (2 + - ex) by (clear; lia).
        rewrite Z.pow_add_r by (clear - Hneg; lia). clear. lia.
      - rewrite Z.shiftl_mul_pow2 by (clear - Hpos; lia).
        assert (HYe : Y * 2 ^ ex = 60).
        { unfold Y. rewrite <- Z.mul_assoc, <- Z.pow_add_r
            by (clear - Hpos Hex; lia).
          replace (2 - ex + ex) with 2 by (clear; lia). reflexivity. }
        rewrite <- HYe. symmetry. apply Z.div_mul_cancel_r.
        + clear - HY; lia.
        + apply Z.pow_nonzero; clear - Hpos; lia. }
    rewrite <- Hbase. destruct Hm2 as [-> | [-> Hhalf]]; [reflexivity|].
    (* rounding up does not reach the next integer *)
    destruct (Z.le_gt_cases (2 ^ 52) a) as [Hnorm|Hsmall].
    + apply (round_up_stays (Z.pos mx) P Y D1 E1 a);
        try assumption; fold N; clear - HNd Hrho Hhalf; lia.
    + (* a result below the normal range has the least exponent *)
      assert (He1 : e' = -1074 /\ n = 0).
      { destruct (Z.le_gt_cases 53 dq) as [H53|H53].
        - specialize (Ha52 H53). clear - Ha52 Hsmall. lia.
        - split; [|clear - Hn H53; lia].
          destruct (Z.eq_dec e' (-1074)) as [|Hne]; [assumption|].
          specialize (Hq52 ltac:(clear - Hne He'r; lia)).
          specialize (Hdq53 Hq52). clear - Hdq53 H53. lia. }
      destruct He1 as [He1 Hn0].
      assert (HbigE : 2 ^ 53 < E1).
      { unfold E1. rewrite He1, Hn0. apply Z.pow_lt_mono_r; clear; lia. }
      rewrite !Z.div_small; [reflexivity | |]; clear - Ha0 Ha53 HbigE; lia.
  - (* the multiples of 8 below 60 * 2 ^ 50 + 56 *)
    assert (He3 : e' = -3 /\ s = 53)
      by (clear - Hsdef He'c He'r He'd Hcase Hd53; lia).
    destruct He3 as [He3 Hs53].
    assert (HPv : P = 2 ^ 53) by (unfold P; rewrite Hs53; reflexivity).
    rewrite Z.shiftl_mul_pow2 by (clear; lia). change (2 ^ 3) with 8.
    assert (HE1v : (n = 0 /\ E1 = 8 /\ D1 = my /\ q < 2 ^ 53)
                   \/ (n = 1 /\ E1 = 4 /\ D1 = 2 * my)).
    { unfold E1, D1. rewrite He3. clear - Hn Hdqb Hdq0.
      destruct Hn as [[-> Hle]|[-> _]]; [left|right]; repeat split.
      destruct Hdq0 as [[-> _]|[Hpos [_ Hlt]]]; [reflexivity|].
      eapply Z.lt_le_trans; [exact Hlt|]. apply Z.pow_le_mono_r; lia. }
    assert (HNv : N = Z.pos mx * 2 ^ 53) by (unfold N; rewrite HPv; reflexivity).
    assert (HDE : D1 * E1 = 15 * 2 ^ 52).
    { clear - HE1v. unfold my in HE1v.
      destruct HE1v as [(_ & -> & -> & _)|(_ & -> & ->)]; reflexivity. }
    assert (Hbase : a / E1 = Z.pos mx * 8 / 60).
    { unfold a.
      rewrite Z.div_div by (first [assumption | clear - HD1; lia]).
      rewrite HDE, HNv.
      replace (Z.pos mx * 2 ^ 53) with (2 * Z.pos mx * 2 ^ 52) by (clear; lia).
      rewrite Z.div_mul_cancel_r by (clear; lia).
      replace (Z.pos mx * 8) with (2 * Z.pos mx * 4) by (clear; lia).
      change 60 with (15 * 4).
      rewrite Z.div_mul_cancel_r by (clear; lia). reflexivity. }
    rewrite <- Hbase. destruct Hm2 as [-> | [-> Hhalf]]; [reflexivity|].
    pose proof (Z.div_mod a E1 ltac:(clear - HE1; lia)) as Hdm.
    pose proof (Z.mod_pos_bound a E1 HE1) as Hmb.
    set (k0 := a / E1) in *. set (r1 := a mod E1) in *.
    destruct (Z.lt_ge_cases (r1 + 1) E1) as [Hlt|Hge].
    { apply (div_mod_pack (a + 1) E1 k0 (r1 + 1));
        clear - HE1 Hdm Hmb Hlt; lia. }
    exfalso.
    assert (Ha52' : n = 1 -> 2 ^ 52 <= a).
    { intros Hn1. apply Ha52. clear - Hn Hn1. lia. }
    assert (Hmx49 : n = 0 -> Z.pos mx < 15 * 2 ^ 49).
    { intros Hn0. destruct HE1v as [(_ & _ & _ & Hlt)|(Hn1 & _)];
        [|exfalso; clear - Hn0 Hn1; lia].
      pose proof (Z.div_mod N my ltac:(clear; unfold my; lia)) as HdN.
      pose proof (Z.mod_pos_bound N my Hmy) as HmN.
      rewrite <- Hq in HdN. set (r := N mod my) in *. clearbody r.
      rewrite HNv in HdN. unfold my in *. clear - HdN HmN Hlt. lia. }
    set (rho := N mod D1) in *. rewrite HNv in HNd.
    unfold my in *. clearbody rho k0 r1 a E1 D1 N.
    clear - HNd Hrho HE1v Hmx0 Ha0 Hhalf Hdm Hmb Hge Ha52' Hmx49.
    destruct HE1v as [(Hn0 & -> & -> & _)|(Hn1 & -> & ->)].
    + specialize (Hmx49 Hn0). clear Ha52'. lia.
    + specialize (Ha52' Hn1). clear Hmx49. lia.
Qed.

(** ** Exact results *)

Lemma iter_xO_mul : forall p k, Zpos (Pos.iter xO p k) = Zpos p * 2 ^ Zpos k.
Proof.
  intros p k. change (Pos.iter xO p k) with (shift_pos k p).
  rewrite shift_pos_correct, Z.pow_pos_fold. apply Z.mul_comm.
Qed.

(** A positive integer multiple of a power of two that needs no rounding:
    normalisation only shifts the mantissa into canonical position. *)
Lemma binary_normalize_exact : forall p e,
  let k := e - fexp prec emax (Zpos (digits2_pos p) + e) in
  0 <= k -> e - k <= 971 ->
  binary_normalize prec emax (Zpos p) e false
  = S754_finite false (Z.to_pos (Zpos p * 2 ^ k)) (e - k).
Proof.
  intros p e k Hk Hmax.
  cbn [binary_normalize]. unfold binary_round.
  set (d := Zpos (digits2_pos p)) in *.
  assert (Hshl : shl_align p e (fexp prec emax (d + e))
                 = (Z.to_pos (Zpos p * 2 ^ k), e - k)).
  { unfold shl_align.
    replace (fexp prec emax (d + e) - e) with (- k) by (unfold k; lia).
    destruct k as [|k'|k'] eqn:Ek; try lia.
    - cbn [Z.opp]. rewrite Z.mul_1_r, Z.sub_0_r. reflexivity.
    - cbn [Z.opp]. rewrite <- iter_xO_mul. cbn [Z.to_pos].
      f_equal. unfold k in Ek. lia. }
  rewrite Hshl. clear Hshl.
  assert (Hpk : 0 < 2 ^ k) by (apply Z.pow_pos_nonneg; lia).
  set (mz := Z.to_pos (Zpos p * 2 ^ k)).
  assert (Hmz : Zpos mz = Zpos p * 2 ^ k) by (unfold mz; rewrite Z2Pos.id; nia).
  assert (Hdz : Zpos (digits2_pos mz) = d + k).
  { apply digits2_unique. rewrite Hmz.
    pose proof (digits2_bounds p) as Hb. fold d in Hb.
    replace (d + k - 1) with (d - 1 + k) by lia.
    rewrite !Z.pow_add_r by (unfold d; lia). nia. }
  destruct (binary_round_aux_located (Zpos mz) (e - k) loc_Exact (Zpos mz) 1
              ltac:(lia) ltac:(lia) (located_exact _)) as (m2 & Hm2 & Hres).
  cbv zeta in Hres. rewrite Hres. clear Hres.
  cbn [Zdigits2] in *. rewrite Hdz in *.
  replace (d + k + (e - k)) with (d + e) in * by lia.
  replace (fexp prec emax (d + e) - (e - k)) with 0 in * by (unfold k; lia).
  change (Z.max 0 0) with 0 in *. change (2 ^ 0) with 1 in *.
  rewrite Z.mul_1_r, Z.div_1_r, Z.mod_1_r in Hm2.
  destruct Hm2 as [-> | [_ Habs]]; [|lia].
  rewrite !Z.add_0_r. cbn [Zdigits2]. rewrite Hdz.
  replace (d + k + (e - k)) with (d + e) by lia.
  replace (fexp prec emax (d + e) - (e - k)) with 0 by (unfold k; lia).
  change (Z.max 0 0) with 0. change (2 ^ 0) with 1.
  rewrite Z.div_1_r, Z.add_0_r. unfold finish.
  replace (e - k <=? 971) with true by (symmetry; apply Z.leb_le; lia).
  reflexivity.
Qed.

Lemma of_Z_small : forall z,
  0 < z < 2 ^ 53 ->
  of_Z z = S754_finite false (Z.to_pos (z * 2 ^ (53 - Zdigits2 z)))
             (Zdigits2 z - 53).
Proof.
  intros [|p|p] Hz; try lia. unfold of_Z. cbn [Zdigits2].
  pose proof (digits2_bounds p) as Hb.
  assert (Hd : Zpos (digits2_pos p) - 1 < 53) by (apply pow2_lt_inv; lia).
  rewrite binary_normalize_exact; rewrite fexp_eq.
  - f_equal; [f_equal; f_equal; f_equal |]; lia.
  - lia.
  - lia.
Qed.

(** An integer below 2 ^ 53 prints as its decimal digits. *)
Lemma toString_of_Z : forall z,
  0 <= z < 2 ^ 53 -> toString (of_Z z) = decimal z.
Proof.
  intros z Hz. destruct (Z.eq_dec z 0) as [->|Hnz]; [reflexivity|].
  rewrite of_Z_small by lia.
  destruct (Zdigits2_bounds z ltac:(lia)) as [[? _]|[Hpos Hb]]; [lia|].
  set (d := Zdigits2 z) in *.
  assert (Hd : d - 1 < 53) by (apply pow2_lt_inv; lia).
  assert (Hpk : 0 < 2 ^ (53 - d)) by (apply Z.pow_pos_nonneg; lia).
  unfold toString, toString_finite, toZ. cbn [signed].
  rewrite Z2Pos.id by nia.
  destruct (Z.leb_spec 0 (d - 53)) as [Hge|Hlt].
  - replace (d - 53) with 0 by lia. replace (53 - d) with 0 by lia.
    change (2 ^ 0) with 1. rewrite Z.mul_1_r, Z.shiftl_0_r.
    replace (z <? 2 ^ 53) with true by (symmetry; apply Z.ltb_lt; lia).
    reflexivity.
  - replace (- (d - 53)) with (53 - d) by lia.
    rewrite Z.land_ones, Z.mod_mul, Z.eqb_refl by lia.
    rewrite Z.shiftr_div_pow2, Z.div_mul by lia.
    replace (z <? 2 ^ 53) with true by (symmetry; apply Z.ltb_lt; lia).
    reflexivity.
Qed.

(** The remainder modulo 60 is exact for every valid positive number. *)
Lemma floor_rem_60 : forall mx ex,
  bounded prec emax mx ex = true ->
  floor (rem (S754_finite false mx ex) (of_Z 60))
  = of_Z (Z.shiftl (Zpos mx) ex mod 60).
Proof.
  intros mx ex Hb.
  destruct (bounded_inv mx ex Hb) as (Hd53 & Hexr & Hcase & Hd & Hmx53).
  clear Hb Hd Hcase Hd53.
  rewrite of_Z_60. unfold rem.
  set (e := Z.min ex (-47)).
  assert (He47 : -1074 <= e <= -47 /\ e <= ex) by (unfold e; lia).
  rewrite !Z.shiftl_mul_pow2 by lia.
  set (G := 2 ^ (- e)).
  set (N := Z.pos mx * 2 ^ (ex - e)).
  set (D := 8444249301319680 * 2 ^ (-47 - e)).
  assert (HG : 0 < G) by (apply Z.pow_pos_nonneg; lia).
  assert (Hp1 : 0 < 2 ^ (ex - e)) by (apply Z.pow_pos_nonneg; lia).
  assert (Hp2 : 0 < 2 ^ (-47 - e)) by (apply Z.pow_pos_nonneg; lia).
  assert (HN : 0 <= N) by (unfold N; nia).
  assert (HD : D = G * 60).
  { assert (2 ^ 47 * 2 ^ (-47 - e) = G)
      by (unfold G; rewrite <- Z.pow_add_r by lia; f_equal; lia).
    unfold D. lia. }
  rewrite Z.rem_mod_nonneg by lia. cbn [cond_Zopp].
  set (R := N mod D).
  pose proof (Z.mod_pos_bound N D ltac:(lia)) as HR. fold R in HR.
  assert (HR53 : R < 2 ^ 53).
  { destruct (Z.le_gt_cases ex (-47)).
    - assert (N = Z.pos mx)
        by (unfold N; replace (ex - e) with 0 by lia; lia).
      assert (R <= N) by (apply Z.mod_le; lia). lia.
    - assert (D = 8444249301319680)
        by (unfold D; replace (-47 - e) with 0 by lia; lia).
      lia. }
  assert (Hfloor : floor (binary_normalize prec emax R e false)
                   = of_Z (R / G)).
  { clear - HR HR53 He47 HG. destruct R as [|p|p] eqn:ER; try lia.
    - rewrite Z.div_0_l by lia. reflexivity.
    - pose proof (digits2_bounds p) as Hbp.
      assert (Hdp : Zpos (digits2_pos p) - 1 < 53) by (apply pow2_lt_inv; lia).
      rewrite binary_normalize_exact; rewrite fexp_eq; try lia.
      set (k := e - Z.max (Z.pos (digits2_pos p) + e - 53) (-1074)).
      assert (Hk : 0 <= k) by lia.
      assert (Hpk : 0 < 2 ^ k) by (apply Z.pow_pos_nonneg; lia).
      unfold floor.
      replace (0 <=? e - k) with false by (symmetry; apply Z.leb_gt; lia).
      cbn [signed]. rewrite Z2Pos.id by nia.
      rewrite Z.shiftr_div_pow2 by lia. f_equal.
      replace (- (e - k)) with (k + - e) by lia.
      rewrite Z.pow_add_r by lia. fold G.
      rewrite (Z.mul_comm (Z.pos p)). apply Z.div_mul_cancel_l; lia. }
  rewrite Hfloor. f_equal.
  unfold R. rewrite HD, Z.rem_mul_r by lia.
  rewrite Z.mul_comm, Z.div_add by lia.
  rewrite (Z.div_small (N mod G)) by (apply Z.mod_pos_bound; lia).
  rewrite Z.add_0_l. f_equal.
  (* the integer part of the number itself *)
  unfold N, G. destruct (Z.le_gt_cases ex 0) as [Hneg|Hpos].
  - rewrite Z.shiftl_div_pow2 by assumption.
    replace (- e) with (ex - e + - ex) by lia.
    rewrite Z.pow_add_r by lia.
    rewrite (Z.mul_comm (Z.pos mx)), (Z.mul_comm (2 ^ (ex - e))).
    rewrite <- Z.div_div by (try apply Z.pow_pos_nonneg; lia).
    rewrite Z.div_mul by lia. reflexivity.
  - rewrite Z.shiftl_mul_pow2 by lia.
    replace (ex - e) with (ex + - e) by lia.
    rewrite Z.pow_add_r, Z.mul_assoc by lia.
    apply Z.div_mul. lia.
Qed.

(** ** The time display *)

(** The exact minutes and seconds, from the integer part of the number. *)
Lemma toQ_floor : forall mx ex,
  exact_minutes (S754_finite false mx ex) = Z.shiftl (Zpos mx) ex / 60
  /\ exact_seconds (S754_finite false mx ex) = Z.shiftl (Zpos mx) ex mod 60.
Proof.
  intros mx ex.
  set (T := Z.shiftl (Zpos mx) ex).
  assert (Hmin : exact_minutes (S754_finite false mx ex) = T / 60).
  { unfold exact_minutes, toQ, T. cbn [signed].
    destruct (Z.leb_spec 0 ex) as [Hpos|Hneg].
    - unfold Qfloor, Qdiv, Qmult, Qinv, inject_Z. cbn [Qnum Qden].
      now rewrite Z.mul_1_r.
    - assert (HB : 0 < 2 ^ (- ex)) by (apply Z.pow_pos_nonneg; lia).
      unfold Qfloor, Qdiv, Qmult, Qinv. cbn [Qnum Qden].
      rewrite Z.mul_1_r, Pos2Z.inj_mul, Z2Pos.id by lia.
      rewrite Z.shiftl_div_pow2 by lia. now rewrite Z.div_div by lia. }
  split; [exact Hmin|].
  unfold exact_seconds. rewrite Hmin. rewrite (Z.mod_eq T 60) by lia.
  unfold toQ. cbn [signed]. destruct (Z.leb_spec 0 ex) as [Hpos|Hneg].
  - fold T. unfold Qfloor, Qminus, Qplus, Qopp, Qmult, inject_Z.
    cbn [Qnum Qden]. change (1 * 1)%positive with 1%positive.
    rewrite Pos.mul_1_r, !Z.mul_1_r, Z.div_1_r. lia.
  - assert (HB : 0 < 2 ^ (- ex)) by (apply Z.pow_pos_nonneg; lia).
    unfold Qfloor, Qminus, Qplus, Qopp, Qmult, inject_Z. cbn [Qnum Qden].
    change (1 * 1)%positive with 1%positive.
    rewrite Pos.mul_1_r, Z2Pos.id, Z.mul_1_r by lia.
    rewrite Z.mul_opp_l, Z.add_opp_r.
    replace (Z.pos mx - 60 * (T / 60) * 2 ^ (- ex))
      with (Z.pos mx + (- (60 * (T / 60))) * 2 ^ (- ex)) by ring.
    rewrite Z.div_add by lia. unfold T.
    rewrite Z.shiftl_div_pow2 by lia. lia.
Qed.

(** [padStart(2, '0')] on the seconds. *)
Lemma padStart_two_digits : forall s,
  0 <= s < 60 ->
  JsString.padStart (decimal s) 2 "0" = two_digits s
  /\ String.length (two_digits s) = 2%nat.
Proof.
  intros s Hs. rewrite <- (Z2Nat.id s) by lia.
  assert (Hn : (Z.to_nat s < 60)%nat) by lia.
  set (n := Z.to_nat s) in *. clearbody n.
  do 60 (destruct n as [|n]; [split; vm_compute; reflexivity|]).
  lia.
Qed.


(** C10, as stated: for every non-negative finite time the display shows
    [floor (t / 60)].  The division is carried out in binary64: for
    t = 67553994410557496 = 60 * (2 ^ 50 + 1) - 4 the quotient
    2 ^ 50 + 1 - 1/15 rounds up to 2 ^ 50 + 1, and the display reads
    1125899906842625:56 where [floor (t / 60)] is 1125899906842624. *)
Lemma formatTime_minutes_rounded_up :
  ~ (forall t,
       valid t = true -> isFinite t = true -> leb (of_Z 0) t = true ->
       formatTime t = formatTime_exact t).
Proof.
  intros H. specialize (H rounded_up eq_refl eq_refl eq_refl).
  vm_compute in H. discriminate H.
Qed.

Lemma ltb_finite_inv : forall m e m' e',
  ltb (S754_finite false m e) (S754_finite false m' e') = true ->
  e < e' \/ (e = e' /\ Zpos m < Zpos m').
Proof.
  intros m e m' e' H. unfold ltb, SFltb, SFcompare in H.
  destruct (Z.compare_spec e e') as [->| |]; [right|left; assumption|discriminate H].
  split; [reflexivity|].
  change (Pos.compare_cont Eq m m') with (Pos.compare m m') in H.
  destruct (Pos.compare_spec m m'); try discriminate H. lia.
Qed.

(** C10, amended: for every non-negative finite time value t below
    67553994410557496 the formatter returns the decimal digits of
    [floor (t / 60)], a colon, and [floor (t mod 60)] on exactly two digits,
    with a leading zero below 10.  (The bound is the counterexample above:
    it is the least time for which the quotient rounds up to the next
    minute.) *)
Theorem formatTime_exact_below_rounded_up :
  forall t,
    valid t = true -> isFinite t = true ->
    leb (of_Z 0) t = true -> ltb t rounded_up = true ->
    formatTime t = formatTime_exact t
    /\ String.length (two_digits (exact_seconds t)) = 2%nat.
Proof.
  intros [s|s| |s mx ex] Hvalid Hfin Hpos Hlt; try discriminate Hfin.
  - destruct s; split; vm_compute; reflexivity.
  - destruct s; [discriminate Hpos|].
    unfold valid, valid_binary in Hvalid.
    change rounded_up with (S754_finite false 8444249301319687 3) in Hlt.
    apply ltb_finite_inv in Hlt.
    destruct (bounded_inv mx ex Hvalid) as (_ & _ & _ & _ & Hmx53).
    destruct (toQ_floor mx ex) as [Hmin Hsec].
    set (T := Z.shiftl (Zpos mx) ex) in *.
    assert (HT : 0 <= T < 67553994410557496).
    { unfold T. destruct (Z.le_gt_cases ex 0) as [Hneg|Hp].
      - rewrite Z.shiftl_div_pow2 by assumption.
        assert (0 < 2 ^ (- ex)) by (apply Z.pow_pos_nonneg; lia).
        split; [apply Z.div_pos; lia|].
        apply Z.div_lt_upper_bound; [lia|]. nia.
      - rewrite Z.shiftl_mul_pow2 by lia.
        assert (Hcases : ex = 1 \/ ex = 2 \/ ex = 3) by lia.
        destruct Hcases as [-> | [-> | ->]];
          [change (2 ^ 1) with 2 | change (2 ^ 2) with 4
           | change (2 ^ 3) with 8]; lia. }
    assert (Hm : 0 <= T / 60 < 2 ^ 53).
    { split; [apply Z.div_pos; lia|].
      apply Z.div_lt_upper_bound; lia. }
    pose proof (Z.mod_pos_bound T 60 ltac:(lia)) as Hs60.
    destruct (padStart_two_digits (T mod 60) Hs60) as [Hpad Hlen].
    unfold formatTime, formatTime_exact.
    rewrite floor_div_60, floor_rem_60 by (assumption || lia). fold T.
    rewrite !toString_of_Z by lia.
    rewrite Hmin, Hsec, Hpad. split; [reflexivity | exact Hlen].
Qed.

Lemma formatTime_exact_below_rounded_up_witness :
  formatTime (parseFloat "125.7") = "2:05"
  /\ formatTime_exact (parseFloat "125.7") = "2:05".
Proof.
  pose proof (formatTime_exact_below_rounded_up (parseFloat "125.7")
                eq_refl eq_refl eq_refl eq_refl) as [Heq _].
  split; [rewrite Heq|]; vm_compute; reflexivity.
Defined.


(* ================================================================== *)
(** * Further properties of the player *)
(* ================================================================== *)

(** ** Toggling *)

(** X1: with a handle, two toggles in a row bring the whole displayed state
    back and add the two opposite calls, in the order of the flag. *)
Theorem togglePlay_twice :
  forall st audio,
    audioRef st = Some audio ->
    let first :=
      if isPlaying st then HTMLAudioElement.pause else HTMLAudioElement.play in
    let second :=
      if isPlaying st then HTMLAudioElement.play else HTMLAudioElement.pause in
    togglePlay (togglePlay st)
    = withAudio
        (HTMLAudioElement.call second (HTMLAudioElement.call first audio)) st
    /\ isPlaying (togglePlay (togglePlay st)) = isPlaying st
    /\ option_map HTMLAudioElement.calls (audioRef (togglePlay (togglePlay st)))
       = Some (HTMLAudioElement.calls audio ++ [first; second])%list.
Proof.
  intros [playing now total vol query active ref] audio Hsome.
  cbn in Hsome. subst ref. destruct audio as [s t d v cs].
  destruct playing; cbn; rewrite <- app_assoc; repeat split; reflexivity.
Qed.

Lemma togglePlay_twice_witness :
  isPlaying (togglePlay (togglePlay (initial (Some audio0)))) = false
  /\ option_map HTMLAudioElement.calls
       (audioRef (togglePlay (togglePlay (initial (Some audio0)))))
     = Some [HTMLAudioElement.play; HTMLAudioElement.pause].
Proof.
  pose proof (togglePlay_twice (initial (Some audio0)) audio0 eq_refl)
    as (_ & Hflag & Hcalls).
  split; [exact Hflag | exact Hcalls].
Defined.

(** X2: selecting a track or the end of playback clears the flag without
    calling the handle, so the next toggle calls [play] and sets the flag,
    whatever the flag was before. *)
Theorem toggle_after_reset_plays :
  forall st audio,
    audioRef st = Some audio ->
    (forall track,
        isPlaying (togglePlay (changeTrack track st)) = true
        /\ option_map HTMLAudioElement.calls
             (audioRef (togglePlay (changeTrack track st)))
           = Some (HTMLAudioElement.calls audio ++ [HTMLAudioElement.play])%list)
    /\ isPlaying (togglePlay (emit ended st)) = true
    /\ option_map HTMLAudioElement.calls (audioRef (togglePlay (emit ended st)))
       = Some (HTMLAudioElement.calls audio ++ [HTMLAudioElement.play])%list.
Proof.
  intros [playing now total vol query active ref] audio Hsome.
  cbn in Hsome. subst ref. repeat split; reflexivity.
Qed.

Lemma toggle_after_reset_plays_witness :
  option_map HTMLAudioElement.calls
    (audioRef (togglePlay (emit ended (togglePlay (initial (Some audio0))))))
  = Some [HTMLAudioElement.play; HTMLAudioElement.play].
Proof.
  exact (proj2 (proj2
    (toggle_after_reset_plays (togglePlay (initial (Some audio0)))
       (HTMLAudioElement.call HTMLAudioElement.play audio0) eq_refl))).
Defined.

(** ** Seeking *)


(** ** Sequences of actions *)

Section Actions.

Local Ltac cases st a :=
  destruct st as [playing now total vol query active [[s t d v cs]|]];
  destruct a as [[|e|e|track|e]|[| |]|t' d'].

(** One action keeps the handle and appends at most the call of a toggle. *)
Lemma act_calls : forall a st h,
  audioRef st = Some h ->
  exists h',
    audioRef (act a st) = Some h'
    /\ HTMLAudioElement.calls h'
       = (HTMLAudioElement.calls h
          ++ (if isToggle a
              then [if isPlaying st then HTMLAudioElement.pause
                    else HTMLAudioElement.play]
              else []))%list.
Proof.
  intros a st h Hsome. cases st a; cbn in Hsome; try discriminate Hsome;
    injection Hsome as <-; cbn; eexists; (split; [reflexivity|]); cbn;
    rewrite ?app_nil_r; try reflexivity.
  destruct playing; reflexivity.
Qed.

Lemma act_no_handle : forall a st,
  audioRef st = None -> audioRef (act a st) = None.
Proof.
  intros a st Hnone. cases st a; cbn in Hnone; try discriminate Hnone;
    reflexivity.
Qed.

(** X4: only the toggle calls the handle.  Along any sequence of user
    operations, media events and playback progress the handle stays the
    same object, its calls only grow, and their number grows by the number
    of toggles; without a handle there is none afterwards either. *)
Theorem perform_calls :
  forall l st,
    (audioRef st = None -> audioRef (perform l st) = None)
    /\ (forall h,
          audioRef st = Some h ->
          exists h' added,
            audioRef (perform l st) = Some h'
            /\ HTMLAudioElement.calls h'
               = (HTMLAudioElement.calls h ++ added)%list
            /\ List.length added = List.length (filter isToggle l)).
Proof.
  induction l as [|a l IH]; intros st; split.
  - auto.
  - intros h Hsome. exists h, []. cbn. rewrite app_nil_r. auto.
  - intros Hnone. cbn. apply IH. now apply act_no_handle.
  - intros h Hsome.
    destruct (act_calls a st h Hsome) as (h1 & Hsome1 & Hcalls1).
    destruct (proj2 (IH (act a st)) h1 Hsome1) as (h' & added & Hs & Hc & Hlen).
    exists h'. eexists. cbn [perform fold_left]. split; [exact Hs|].
    split.
    + rewrite Hc, Hcalls1, <- app_assoc. reflexivity.
    + rewrite length_app, Hlen. cbn [filter].
      destruct (isToggle a); cbn; lia.
Qed.

Lemma perform_calls_witness :
  exists h' added,
    audioRef
      (perform [User OpTogglePlay; Media ended; User OpTogglePlay]
         (initial (Some audio0))) = Some h'
    /\ HTMLAudioElement.calls h' = ([] ++ added)%list
    /\ List.length added = 2%nat.
Proof.
  exact (proj2 (perform_calls
                  [User OpTogglePlay; Media ended; User OpTogglePlay]
                  (initial (Some audio0))) audio0 eq_refl).
Defined.

Lemma paired_from_play : forall l p,
  paired_from p l = true ->
  paired_from p (l ++ [HTMLAudioElement.play]) = true.
Proof.
  induction l as [|m l IH]; intros p H; [reflexivity|].
  destruct m; cbn in *.
  - now apply IH.
  - destruct p as [[|]|]; try discriminate H. now apply IH.
Qed.

Lemma paired_from_pause : forall l p,
  paired_from p l = true ->
  last l HTMLAudioElement.pause = HTMLAudioElement.play ->
  paired_from p (l ++ [HTMLAudioElement.pause]) = true.
Proof.
  induction l as [|m l IH]; intros p H Hlast; [discriminate Hlast|].
  destruct l as [|m' l].
  - cbn in Hlast. subst m. reflexivity.
  - change (last (m :: m' :: l) HTMLAudioElement.pause)
      with (last (m' :: l) HTMLAudioElement.pause) in Hlast.
    change ((m :: m' :: l) ++ [HTMLAudioElement.pause])%list
      with (m :: ((m' :: l) ++ [HTMLAudioElement.pause]))%list.
    destruct m.
    + apply (IH (Some HTMLAudioElement.play)); assumption.
    + destruct p as [[|]|]; try discriminate H.
      apply (IH (Some HTMLAudioElement.pause)); assumption.
Qed.

Lemma act_callsConsistent : forall a st,
  callsConsistent st -> callsConsistent (act a st).
Proof.
  intros a st H. unfold callsConsistent in *.
  destruct (audioRef st) as [h|] eqn:Hsome.
  - destruct (act_calls a st h Hsome) as (h' & Hsome' & Hcalls).
    rewrite Hsome', Hcalls. destruct H as [Hp Hl].
    destruct (isToggle a) eqn:Htog.
    + destruct a as [[| | | |]| |]; try discriminate Htog.
      cbn [act step]. unfold togglePlay. rewrite Hsome.
      cbn [isPlaying setIsPlaying]. destruct (isPlaying st) eqn:Hplay.
      * split; [apply paired_from_pause; auto | discriminate].
      * split; [now apply paired_from_play | intros _; apply last_last].
    + rewrite app_nil_r. split; [exact Hp|].
      intros Hflag. apply Hl.
      destruct st as [playing now total vol query active ref].
      cbn in Hsome. subst ref.
      destruct a as [[|e|e|track|e]|[| |]|t' d']; cbn in *;
        try discriminate; assumption.
  - now rewrite (act_no_handle a st Hsome).
Qed.

(** X5: the component never calls [pause] first or twice in a row.  If the
    calls are paired (every [pause] directly after a [play]) and the last
    call was [play] while the flag is set, this stays so along any sequence
    of actions. *)
Theorem perform_callsConsistent :
  forall l st, callsConsistent st -> callsConsistent (perform l st).
Proof.
  induction l as [|a l IH]; intros st H; [exact H|].
  cbn. apply IH. now apply act_callsConsistent.
Qed.

Lemma perform_callsConsistent_witness :
  callsConsistent
    (perform [User OpTogglePlay; Media ended; User OpTogglePlay;
              User OpTogglePlay]
       (initial (Some audio0))).
Proof.
  apply perform_callsConsistent. split; [reflexivity | discriminate].
Defined.

Lemma act_srcOfTrack : forall a st, srcOfTrack st -> srcOfTrack (act a st).
Proof.
  intros a st H. cases st a; try destruct playing; cbn in *; auto.
Qed.

(** X6: the handle plays the active track.  If the source locator of the
    handle is the URL of the active track, it is so after any sequence of
    actions. *)
Theorem perform_srcOfTrack :
  forall l st, srcOfTrack st -> srcOfTrack (perform l st).
Proof.
  induction l as [|a l IH]; intros st H; [exact H|].
  cbn. apply IH. now apply act_srcOfTrack.
Qed.

Lemma perform_srcOfTrack_witness :
  srcOfTrack
    (perform [User OpTogglePlay;
              User (OpChangeTrack (mkTrack 2 "Track 2" "Artist 2" "other.wav"));
              Browser (of_Z 3) (of_Z 9); Media timeupdate]
       (initial (Some audio0))).
Proof.
  apply perform_srcOfTrack. reflexivity.
Defined.



(** X8: the active track is always one of the tracks of the list.  Tracks
    are selected from the rendered list only, which shows filtered tracks
    only; so along any sequence of actions the active track stays in
    [sampleTracks]. *)
Theorem trace_currentTrack :
  forall st l st',
    Trace st l st' ->
    In (currentTrack st) sampleTracks ->
    st' = perform l st /\ In (currentTrack st') sampleTracks.
Proof.
  intros st l st' Htrace. induction Htrace as [st|st a l st' Hen _ IH].
  - auto.
  - intros Hin.
    assert (Hin' : In (currentTrack (act a st)) sampleTracks).
    { destruct st as [playing now total vol query active [[s t d v cs]|]];
        destruct a as [[|e|e|track|e]|[| |]|t' d'];
        try destruct playing;
        cbn -[sampleTracks filteredTracks] in *; auto;
        unfold filteredTracks in Hen; apply filter_In in Hen; tauto. }
    destruct (IH Hin') as [-> Hfinal]. auto.
Qed.

Lemma trace_currentTrack_witness :
  In (currentTrack
        (perform [User (OpSearch (mkChange "k 3"));
                  User (OpChangeTrack
                          (mkTrack 3 "Track 3" "Artist 3"
                             "https://www.soundjay.com/misc/sounds/bell-ringing-05.wav"))]
           (initial (Some audio0))))
     sampleTracks.
Proof.
  refine (proj2 (trace_currentTrack (initial (Some audio0))
    [User (OpSearch (mkChange "k 3"));
     User (OpChangeTrack
             (mkTrack 3 "Track 3" "Artist 3"
                "https://www.soundjay.com/misc/sounds/bell-ringing-05.wav"))]
    _ _ _)).
  - apply trace_cons; [exact I|]. apply trace_cons; [|apply trace_nil].
    cbn. left. reflexivity.
  - cbn. left. reflexivity.
Defined.

End Actions.

(** ** The track filter *)

Lemma append_nil_r : forall s : string, s ++ "" = s.
Proof. induction s as [|c s IH]; cbn; [reflexivity | now rewrite IH]. Qed.

Lemma append_assoc : forall a b c : string, (a ++ b) ++ c = a ++ (b ++ c).
Proof. induction a as [|x a IH]; intros b c; cbn; [reflexivity | now rewrite IH]. Qed.

Lemma includes_part : forall s pre q post,
  JsString.includes s (pre ++ q ++ post) = true ->
  JsString.includes s q = true.
Proof.
  intros s pre q post H. apply includes_app in H as (a & b & ->).
  apply includes_app. exists (a ++ pre), (post ++ b).
  now rewrite !append_assoc.
Qed.

(** X9: typing more never adds tracks.  Every track shown for a search
    string is shown for each part of that string; in particular extending
    the search string at either end can only remove tracks. *)
Theorem filteredTracks_narrows :
  forall searchQuery pre post track,
    In track (filteredTracks (pre ++ searchQuery ++ post)) ->
    In track (filteredTracks searchQuery).
Proof.
  intros q pre post track H. unfold filteredTracks in *.
  apply filter_In in H as [Hin Hm]. apply filter_In. split; [exact Hin|].
  unfold trackMatches in *. rewrite !toLowerCase_app in Hm.
  apply orb_true_iff in Hm. apply orb_true_iff.
  destruct Hm as [Hm|Hm]; [left|right]; eapply includes_part; exact Hm.
Qed.

Lemma filteredTracks_narrows_witness :
  In (mkTrack 2 "Track 2" "Artist 2"
        "https://www.soundjay.com/misc/sounds/bell-ringing-05.wav")
     (filteredTracks "ck").
Proof.
  apply (filteredTracks_narrows "ck" "tra" " 2"). cbn. left. reflexivity.
Defined.

(** X10: the case of the search string does not matter: two search strings
    that differ only in the case of letters give the same list. *)
Theorem filteredTracks_case :
  forall q q', ci_eq q q' -> filteredTracks q = filteredTracks q'.
Proof.
  intros q q' H. apply toLowerCase_ci_eq in H.
  unfold filteredTracks, trackMatches. now rewrite H.
Qed.

Lemma filteredTracks_case_witness :
  filteredTracks "ARTIST 3" = filteredTracks "artist 3".
Proof.
  apply filteredTracks_case. apply toLowerCase_ci_eq. reflexivity.
Defined.

(** X11: a track of the list is found by its own title and by its own
    artist, in any case of the letters. *)
Theorem filteredTracks_finds_own :
  forall track searchQuery,
    In track sampleTracks ->
    ci_eq searchQuery (title track) \/ ci_eq searchQuery (artist track) ->
    In track (filteredTracks searchQuery).
Proof.
  intros track q Hin Hq. unfold filteredTracks. apply filter_In.
  split; [exact Hin|]. unfold trackMatches. apply orb_true_iff.
  destruct Hq as [Hq|Hq]; apply toLowerCase_ci_eq in Hq; rewrite Hq;
    [left|right]; apply includes_app; exists "", "";
    cbn; now rewrite append_nil_r.
Qed.

Lemma filteredTracks_finds_own_witness :
  In (mkTrack 1 "Track 1" "Artist 1"
        "https://www.soundjay.com/misc/sounds/bell-ringing-05.wav")
     (filteredTracks "tRACK 1").
Proof.
  apply filteredTracks_finds_own.
  - cbn. left. reflexivity.
  - left. apply toLowerCase_ci_eq. reflexivity.
Defined.

(** ** The progress slider *)

(** X12: the [max] given to the progress slider is never NaN: it is 0 when
    the duration is NaN and compares like the duration otherwise, so the
    range of the slider is [0, duration] whenever the duration is a
    number. *)
Theorem sliderMax_number :
  forall st,
    sliderMax st <> NaN
    /\ (duration st = NaN -> sliderMax st = of_Z 0)
    /\ (duration st <> NaN ->
        forall x, leb x (sliderMax st) = leb x (duration st)).
Proof.
  intros [playing now [s|s| |s m e] vol query active ref];
    unfold sliderMax; cbn [duration truthy]; repeat split;
    try discriminate; try reflexivity; try (intros H; now elim H).
Qed.

Lemma sliderMax_number_witness :
  leb (of_Z 30) (sliderMax loaded100) = leb (of_Z 30) (duration loaded100).
Proof.
  apply (proj2 (proj2 (sliderMax_number loaded100))).
  intros H. vm_compute in H. discriminate H.
Defined.

(** ** The effect *)

(** X13: with the listeners of the effect in place (and no others), an
    event of the handle changes the state as [emit] says: exactly one
    callback runs for each kind of event, and none without a handle. *)
Theorem effect_listeners_dispatch :
  forall ev st, dispatchEvent ev (effectSetup st []) st = emit ev st.
Proof.
  intros ev [playing now total vol query active [audio|]]; destruct ev;
    reflexivity.
Qed.

Lemma existsb_app_false : forall (ty : MediaEvent) (cb : Callback) ls l,
  existsb (same_listener ty cb) ls = false ->
  same_listener ty cb l = false ->
  existsb (same_listener ty cb) (ls ++ [l])%list = false.
Proof.
  intros ty cb ls l Hls Hl. rewrite existsb_app, Hls. cbn. now rewrite Hl.
Qed.

Lemma remove_added : forall ty cb ls,
  existsb (same_listener ty cb) ls = false ->
  removeEventListener ty cb (ls ++ [(ty, cb)])%list = ls.
Proof.
  intros ty cb ls. induction ls as [|l r IH]; cbn [existsb app removeEventListener].
  - intros _. unfold same_listener. cbn [fst snd].
    destruct ty, cb; reflexivity.
  - intros H. apply orb_false_iff in H as [Hl Hr]. rewrite Hl.
    now rewrite IH.
Qed.

Lemma remove_other : forall ty cb ls l,
  same_listener ty cb l = false ->
  removeEventListener ty cb (ls ++ [l])%list
  = (removeEventListener ty cb ls ++ [l])%list.
Proof.
  intros ty cb ls l Hl. induction ls as [|x r IH]; cbn [app removeEventListener].
  - now rewrite Hl.
  - destruct (same_listener ty cb x); [reflexivity|]. now rewrite IH.
Qed.

(** X14: mounting and unmounting leave the listeners of the handle as they
    were: the cleanup removes exactly what the effect body added, provided
    none of the three callbacks was registered before (they are created by
    the effect body itself). *)
Theorem effect_cleanup_restores :
  forall st ls,
    existsb (same_listener timeupdate cb_updateTime) ls = false ->
    existsb (same_listener loadedmetadata cb_updateDuration) ls = false ->
    existsb (same_listener ended cb_handleEnded) ls = false ->
    effectCleanup st (effectSetup st ls) = ls.
Proof.
  intros st ls H1 H2 H3. unfold effectCleanup, effectSetup.
  destruct (audioRef st) as [audio|]; [|reflexivity].
  unfold addEventListener at 3. rewrite H1.
  unfold addEventListener at 2.
  rewrite (existsb_app_false _ _ _ (timeupdate, cb_updateTime) H2 eq_refl).
  unfold addEventListener.
  rewrite (existsb_app_false _ _ _ (loadedmetadata, cb_updateDuration)
             (existsb_app_false _ _ _ (timeupdate, cb_updateTime)
                H3 eq_refl) eq_refl).
  rewrite (remove_other timeupdate cb_updateTime _ (ended, cb_handleEnded))
    by reflexivity.
  rewrite (remove_other timeupdate cb_updateTime _
             (loadedmetadata, cb_updateDuration)) by reflexivity.
  rewrite (remove_added _ _ _ H1).
  rewrite (remove_other loadedmetadata cb_updateDuration _
             (ended, cb_handleEnded)) by reflexivity.
  rewrite (remove_added _ _ _ H2).
  apply remove_added, H3.
Qed.

Lemma effect_cleanup_restores_witness :
  effectCleanup (initial (Some audio0))
    (effectSetup (initial (Some audio0)) [(ended, cb_updateTime)])
  = [(ended, cb_updateTime)].
Proof.
  apply effect_cleanup_restores; reflexivity.
Defined.

(** ** More on the time display *)

(** The display of a positive number whose quotient by 60 does not round
    up, from its integer part. *)
Lemma formatTime_finite : forall mx ex,
  bounded prec emax mx ex = true ->
  ex <= 2 \/ (ex = 3 /\ Zpos mx < 8444249301319687) ->
  let T := Z.shiftl (Zpos mx) ex in
  formatTime (S754_finite false mx ex)
  = (decimal (T / 60) ++ ":" ++ two_digits (T mod 60))%string.
Proof.
  intros mx ex Hb Hex T.
  destruct (bounded_inv mx ex Hb) as (_ & _ & _ & _ & Hmx53).
  assert (HT : 0 <= T < 67553994410557496).
  { unfold T. destruct (Z.le_gt_cases ex 0) as [Hneg|Hp].
    - rewrite Z.shiftl_div_pow2 by assumption.
      assert (0 < 2 ^ (- ex)) by (apply Z.pow_pos_nonneg; lia).
      split; [apply Z.div_pos; lia|].
      apply Z.div_lt_upper_bound; [lia|]. nia.
    - rewrite Z.shiftl_mul_pow2 by lia.
      assert (Hcases : ex = 1 \/ ex = 2 \/ ex = 3) by lia.
      destruct Hcases as [-> | [-> | ->]];
        [change (2 ^ 1) with 2 | change (2 ^ 2) with 4
         | change (2 ^ 3) with 8]; lia. }
  assert (Hm : 0 <= T / 60 < 2 ^ 53).
  { split; [apply Z.div_pos; lia|]. apply Z.div_lt_upper_bound; lia. }
  pose proof (Z.mod_pos_bound T 60 ltac:(lia)) as Hs60.
  destruct (padStart_two_digits (T mod 60) Hs60) as [Hpad _].
  unfold formatTime.
  rewrite floor_div_60, floor_rem_60 by assumption. fold T.
  rewrite !toString_of_Z by lia. now rewrite Hpad.
Qed.

(** A positive integer below 2 ^ 53 is a valid number with a non-positive
    exponent, and it is its own integer part. *)
Lemma of_Z_valid : forall z,
  0 < z < 2 ^ 53 ->
  exists mx ex,
    of_Z z = S754_finite false mx ex /\ bounded prec emax mx ex = true
    /\ ex <= 0 /\ Z.shiftl (Zpos mx) ex = z.
Proof.
  intros z Hz. rewrite of_Z_small by assumption.
  destruct (Zdigits2_bounds z ltac:(lia)) as [[? _]|[Hpos Hb]]; [lia|].
  set (d := Zdigits2 z) in *.
  assert (Hd : d - 1 < 53) by (apply pow2_lt_inv; lia).
  assert (Hpk : 0 < 2 ^ (53 - d)) by (apply Z.pow_pos_nonneg; lia).
  set (M := Z.to_pos (z * 2 ^ (53 - d))).
  assert (HM : Zpos M = z * 2 ^ (53 - d)) by (unfold M; rewrite Z2Pos.id; nia).
  assert (HdM : Zpos (digits2_pos M) = 53).
  { apply digits2_unique. rewrite HM.
    replace (53 - 1) with (d - 1 + (53 - d)) by lia.
    replace (2 ^ 53) with (2 ^ (d + (53 - d))) by (f_equal; lia).
    rewrite !Z.pow_add_r by lia. nia. }
  exists M, (d - 53). split; [reflexivity|]. split; [|split; [lia|]].
  - unfold bounded, canonical_mantissa. rewrite HdM, fexp_eq.
    apply andb_true_iff. split; [apply Z.eqb_eq | apply Z.leb_le];
      unfold emax, prec; lia.
  - rewrite Z.shiftl_div_pow2 by lia. rewrite HM.
    replace (- (d - 53)) with (53 - d) by lia. apply Z.div_mul. lia.
Qed.

(** X15: a whole number of seconds, [60 * m + s] with [s] below 60, is
    displayed as the digits of [m], a colon and [s] on two digits. *)
Theorem formatTime_whole_seconds :
  forall m s,
    0 <= m -> 0 <= s < 60 -> 60 * m + s < 2 ^ 53 ->
    formatTime (of_Z (60 * m + s))
    = (decimal m ++ ":" ++ two_digits s)%string.
Proof.
  intros m s Hm Hs Hlt.
  assert (Hq : (60 * m + s) / 60 = m).
  { rewrite Z.mul_comm, Z.div_add_l by lia. rewrite Z.div_small; lia. }
  assert (Hr : (60 * m + s) mod 60 = s).
  { rewrite Z.add_comm, Z.mul_comm, Z.mod_add by lia. apply Z.mod_small; lia. }
  destruct (Z.eq_dec (60 * m + s) 0) as [E|E].
  - assert (m = 0) by lia. assert (s = 0) by lia. subst. reflexivity.
  - destruct (of_Z_valid (60 * m + s) ltac:(lia))
      as (mx & ex & -> & Hb & Hex & HT).
    rewrite formatTime_finite by (assumption || lia).
    now rewrite HT, Hq, Hr.
Qed.

Lemma formatTime_whole_seconds_witness :
  formatTime (of_Z 3725) = "62:05"%string.
Proof.
  apply (formatTime_whole_seconds 62 5); lia.
Defined.

(** X16: the display ignores the fraction of a second: below
    67553994410557496 a non-negative time and its integer part are
    displayed alike. *)
Theorem formatTime_floor :
  forall t,
    valid t = true -> isFinite t = true ->
    leb (of_Z 0) t = true -> ltb t rounded_up = true ->
    formatTime (floor t) = formatTime t.
Proof.
  intros [s|s| |s mx ex] Hvalid Hfin Hpos Hlt; try discriminate Hfin.
  - reflexivity.
  - destruct s; [discriminate Hpos|].
    unfold valid, valid_binary in Hvalid.
    change rounded_up with (S754_finite false 8444249301319687 3) in Hlt.
    apply ltb_finite_inv in Hlt.
    destruct (bounded_inv mx ex Hvalid) as (_ & _ & _ & _ & Hmx53).
    cbn [floor signed]. destruct (Z.leb_spec 0 ex) as [Hge|Hneg];
      [reflexivity|].
    rewrite formatTime_finite by (assumption || lia). cbv zeta.
    rewrite Z.shiftl_div_pow2 by lia. rewrite Z.shiftr_div_pow2 by lia.
    assert (HB : 1 < 2 ^ (- ex)) by (apply Z.pow_gt_1; lia).
    set (T := Zpos mx / 2 ^ (- ex)).
    assert (HT : 0 <= T < 2 ^ 53).
    { unfold T. split; [apply Z.div_pos; lia|].
      apply Z.div_lt_upper_bound; nia. }
    destruct (Z.eq_dec T 0) as [->|Hnz]; [reflexivity|].
    destruct (of_Z_valid T ltac:(lia)) as (m' & e' & -> & Hb' & He' & HT').
    rewrite formatTime_finite by (assumption || lia). cbv zeta.
    now rewrite HT'.
Qed.

Lemma formatTime_floor_witness :
  formatTime (floor (parseFloat "125.7")) = formatTime (parseFloat "125.7").
Proof.
  apply formatTime_floor; reflexivity.
Defined.

(** X17: the seconds are exact for every non-negative finite time, however
    large: the part after the colon is [floor (t mod 60)] on exactly two
    digits, also where the minutes are rounded. *)
Theorem formatTime_seconds_exact :
  forall t,
    valid t = true -> isFinite t = true -> leb (of_Z 0) t = true ->
    formatTime t
    = (toString (floor (div t (of_Z 60))) ++ ":"
         ++ two_digits (exact_seconds t))%string
    /\ 0 <= exact_seconds t < 60
    /\ String.length (two_digits (exact_seconds t)) = 2%nat.
Proof.
  intros [s|s| |s mx ex] Hvalid Hfin Hpos; try discriminate Hfin.
  - destruct s; repeat split; vm_compute; congruence.
  - destruct s; [discriminate Hpos|].
    unfold valid, valid_binary in Hvalid.
    destruct (toQ_floor mx ex) as [_ Hsec]. rewrite Hsec.
    set (T := Z.shiftl (Zpos mx) ex).
    pose proof (Z.mod_pos_bound T 60 ltac:(lia)) as Hs60.
    destruct (padStart_two_digits (T mod 60) Hs60) as [Hpad Hlen].
    unfold formatTime. rewrite floor_rem_60 by assumption. fold T.
    rewrite (toString_of_Z (T mod 60)) by lia. rewrite Hpad.
    split; [reflexivity|]. split; [exact Hs60 | exact Hlen].
Qed.

Lemma formatTime_seconds_exact_witness :
  formatTime rounded_up = "1125899906842625:56"%string
  /\ exact_seconds rounded_up = 56.
Proof.
  destruct (formatTime_seconds_exact rounded_up eq_refl eq_refl eq_refl)
    as (H & _ & _).
  split; [rewrite H|]; vm_compute; reflexivity.
Defined.

(** X18: a time that is not finite (the duration of a stream is Infinity,
    that of an element without metadata NaN) is displayed as the number
    itself followed by [:NaN]: the remainder is NaN and is not padded. *)
Theorem formatTime_not_finite :
  forall t, isFinite t = false ->
    formatTime t = (toString t ++ ":NaN")%string.
Proof.
  intros [s|s| |s mx ex] H; try discriminate H.
  - destruct s; vm_compute; reflexivity.
  - vm_compute; reflexivity.
Qed.

Lemma formatTime_not_finite_witness :
  formatTime (S754_infinity false) = "Infinity:NaN"%string.
Proof.
  apply (formatTime_not_finite (S754_infinity false)). reflexivity.
Defined.

(** ** Reading back a printed whole number *)

Lemma read_digits_acc : forall d acc len,
  read_digits (NilEmpty.string_of_uint d) (Zpos acc) len
  = (Zpos (Pos.of_uint_acc d acc), len + Z.of_nat (Decimal.nb_digits d),
     ""%string).
Proof.
  induction d as [|d IH|d IH|d IH|d IH|d IH|d IH|d IH|d IH|d IH|d IH];
    intros acc len;
    cbn [NilEmpty.string_of_uint read_digits Decimal.nb_digits
         Pos.of_uint_acc];
    [ now rewrite Z.add_0_r | .. ];
    match goal with
    | |- context [digit_of ?c] =>
        let v := eval vm_compute in (digit_of c) in
        change (digit_of c) with v
    end; cbv iota;
    match goal with
    | |- read_digits _ ?a _ = (Zpos (Pos.of_uint_acc _ ?p), _, _) =>
        replace a with (Zpos p) by lia
    end; rewrite IH; f_equal; f_equal; lia.
Qed.

Lemma read_digits_uint : forall d len,
  read_digits (NilEmpty.string_of_uint d) 0 len
  = (Z.of_N (Pos.of_uint d), len + Z.of_nat (Decimal.nb_digits d),
     ""%string).
Proof.
  induction d as [|d IH|d IH|d IH|d IH|d IH|d IH|d IH|d IH|d IH|d IH];
    intros len;
    cbn [NilEmpty.string_of_uint read_digits Decimal.nb_digits Pos.of_uint];
    [ now rewrite Z.add_0_r | .. ];
    match goal with
    | |- context [digit_of ?c] =>
        let v := eval vm_compute in (digit_of c) in
        change (digit_of c) with v
    end; cbv iota;
    [ change (10 * 0 + 0) with 0; rewrite IH; f_equal; f_equal; lia | .. ];
    match goal with
    | |- read_digits _ ?a _ = _ =>
        let v := eval vm_compute in a in change a with v
    end; rewrite read_digits_acc; cbn [Z.of_N]; f_equal; f_equal; lia.
Qed.

Lemma first_digit : forall d,
  d <> Decimal.Nil ->
  exists c r,
    NilEmpty.string_of_uint d = String c r /\ is_white c = false
    /\ read_sign (String c r) = (false, String c r)
    /\ String.prefix "Infinity" (String c r) = false
    /\ (0 < Z.of_nat (Decimal.nb_digits d)).
Proof.
  intros d Hd. destruct d; [congruence | ..];
    eexists; eexists; cbn [NilEmpty.string_of_uint];
    (split; [reflexivity|]); repeat split;
    try reflexivity; cbn [Decimal.nb_digits]; lia.
Qed.

Lemma of_decimal_whole : forall z,
  0 <= z < 2 ^ 53 -> of_decimal false z 0 = of_Z z.
Proof.
  intros z Hz. unfold of_decimal.
  destruct (Z.leb_spec z 0) as [H0|Hpos].
  - replace z with 0 by lia. reflexivity.
  - assert (Hlog : Z.log2 z < 53) by (apply Z.log2_lt_pow2; lia).
    pose proof (Z.log2_nonneg z) as Hnn.
    assert (Hq : Z.log2 z / 4 <= 13)
      by (apply Z.lt_succ_r, Z.div_lt_upper_bound; lia).
    replace (310 <? Z.log2 z / 4 + 0) with false
      by (symmetry; apply Z.ltb_ge; lia).
    replace (Z.log2 z + 1 + 3 * 0 <? - 1080) with false
      by (symmetry; apply Z.ltb_ge; lia).
    cbn [Z.leb Z.compare cond_Zopp]. change (10 ^ 0) with 1.
    rewrite Z.mul_1_r. reflexivity.
Qed.

(** The digits of a whole number below 2 ^ 53 are read back as that
    number. *)
Lemma parseFloat_decimal : forall z,
  0 <= z < 2 ^ 53 -> parseFloat (decimal z) = of_Z z.
Proof.
  intros z Hz. unfold decimal.
  pose proof (DecimalN.Unsigned.of_to (Z.to_N z)) as Hof.
  set (d := N.to_uint (Z.to_N z)) in *. unfold N.of_uint in Hof.
  destruct (Decimal.uint_eq_dec d Decimal.Nil) as [E|E].
  - rewrite E in *. cbn in Hof. replace z with 0 by lia. reflexivity.
  - destruct (first_digit d E) as (c & r & Hs & Hw & Hsign & Hpre & Hn).
    replace (NilZero.string_of_uint d) with (NilEmpty.string_of_uint d)
      by (destruct d; [congruence | reflexivity ..]).
    unfold parseFloat. rewrite Hs. cbn [trimStart]. rewrite Hw, Hsign, Hpre.
    rewrite <- Hs, read_digits_uint, Hof. cbv iota beta.
    replace (0 + Z.of_nat (Decimal.nb_digits d) + 0 =? 0) with false
      by (symmetry; apply Z.eqb_neq; lia).
    cbn [read_exponent]. rewrite Z.sub_0_r, Z2N.id by lia.
    apply of_decimal_whole, Hz.
Qed.

(** X19: the progress slider shows the elapsed time; a change event that
    carries the shown value of a whole number of seconds seeks to that
    same time, and the elapsed time of the state stays as it was. *)
Theorem handleSeek_shown_value :
  forall z st audio,
    0 <= z < 2 ^ 53 ->
    audioRef st = Some audio -> currentTime st = of_Z z ->
    let st' := handleSeek (mkChange (toString (currentTime st))) st in
    currentTime st' = currentTime st
    /\ audioRef st'
       = Some (HTMLAudioElement.set_currentTime (currentTime st) audio).
Proof.
  intros z [playing now total vol query active ref] audio Hz Href Hnow.
  cbn [audioRef currentTime] in *. subst ref now.
  unfold handleSeek. cbn [target_value audioRef].
  rewrite toString_of_Z, parseFloat_decimal by assumption.
  split; reflexivity.
Qed.

Lemma handleSeek_shown_value_witness :
  currentTime
    (handleSeek (mkChange (toString (of_Z 42)))
       (setCurrentTime (of_Z 42) loaded100))
  = of_Z 42.
Proof.
  refine (proj1 (handleSeek_shown_value 42
                   (setCurrentTime (of_Z 42) loaded100) _ _ eq_refl eq_refl)).
  lia.
Defined.

(** ** Independence of the controls *)


(** X21: the search box is independent of the player: typing a search
    string commutes with every action that is not itself a search. *)
Theorem search_commutes :
  forall e a st,
    (forall e', a <> User (OpSearch e')) ->
    act a (handleSearch e st) = handleSearch e (act a st).
Proof.
  intros e a [playing now total vol query active [[s t d v cs]|]] Ha;
    destruct a as [[|e1|e1|track|e1]|[| |]|t' d'];
    try (now elim (Ha e1)); try destruct playing; reflexivity.
Qed.

Lemma search_commutes_witness :
  act (User OpTogglePlay) (handleSearch (mkChange "art") (initial (Some audio0)))
  = handleSearch (mkChange "art") (act (User OpTogglePlay) (initial (Some audio0))).
Proof.
  apply search_commutes. intros e' H. discriminate H.
Defined.

(** X22: the volume control is independent of the rest: a volume change
    commutes with every action that is not itself a volume change; in
    particular it neither starts nor stops playback and keeps the
    position. *)
Theorem volume_commutes :
  forall e a st,
    (forall e', a <> User (OpVolumeChange e')) ->
    act a (handleVolumeChange e st) = handleVolumeChange e (act a st).
Proof.
  intros e a [playing now total vol query active [[s t d v cs]|]] Ha;
    destruct a as [[|e1|e1|track|e1]|[| |]|t' d'];
    try (now elim (Ha e1)); try destruct playing; reflexivity.
Qed.

Lemma volume_commutes_witness :
  act (Media ended) (handleVolumeChange (mkChange "0.3") loaded100)
  = handleVolumeChange (mkChange "0.3") (act (Media ended) loaded100).
Proof.
  apply volume_commutes. intros e' H. discriminate H.
Defined.

(** ** The volume at mount *)

(** An action other than a volume change keeps the displayed volume and the
    volume of the handle. *)
Lemma act_keeps_volume : forall a st h,
  (forall e, a <> User (OpVolumeChange e)) ->
  audioRef st = Some h ->
  exists h',
    audioRef (act a st) = Some h'
    /\ HTMLAudioElement.volume h' = HTMLAudioElement.volume h
    /\ volume (act a st) = volume st.
Proof.
  intros a [playing now total vol query active ref] [s t d v cs] Ha Hsome.
  cbn in Hsome. subst ref.
  destruct a as [[|e1|e1|track|e1]|[| |]|t' d'];
    try (now elim (Ha e1)); try destruct playing;
    eexists; repeat split; reflexivity.
Qed.

Lemma perform_keeps_volume : forall l st h,
  (forall e, ~ In (User (OpVolumeChange e)) l) ->
  audioRef st = Some h ->
  exists h',
    audioRef (perform l st) = Some h'
    /\ HTMLAudioElement.volume h' = HTMLAudioElement.volume h
    /\ volume (perform l st) = volume st.
Proof.
  induction l as [|a l IH]; intros st h Hl Hsome.
  - exists h. auto.
  - destruct (act_keeps_volume a st h) as (h1 & Hs1 & Hv1 & Hst1);
      [intros e E; apply (Hl e); left; now rewrite E | exact Hsome |].
    destruct (IH (act a st) h1) as (h' & Hs & Hv & Hst);
      [intros e Hin; apply (Hl e); now right | exact Hs1 |].
    exists h'. change (perform (a :: l) st) with (perform l (act a st)).
    split; [exact Hs|]. split; [now rewrite Hv | now rewrite Hst].
Qed.

(** X23: the initial volume 0.7 of the state is never written to the
    handle: from the mount on, and until the first volume change, an
    element with the default volume 1 does not have the displayed
    volume. *)
Theorem volume_not_applied_at_mount :
  forall audio l,
    HTMLAudioElement.volume audio = of_Z 1 ->
    (forall e, ~ In (User (OpVolumeChange e)) l) ->
    ~ volumeInSync (perform l (initial (Some audio))).
Proof.
  intros audio l Hdefault Hl Hsync.
  destruct (perform_keeps_volume l (initial (Some audio)) audio Hl eq_refl)
    as (h' & Hs & Hv & Hst).
  unfold volumeInSync in Hsync. rewrite Hs, Hv, Hst, Hdefault in Hsync.
  vm_compute in Hsync. discriminate Hsync.
Qed.

Lemma volume_not_applied_at_mount_witness :
  ~ volumeInSync
      (perform [User OpTogglePlay; Media timeupdate] (initial (Some audio0))).
Proof.
  apply volume_not_applied_at_mount; [reflexivity|].
  intros e [H|[H|[]]]; discriminate H.
Defined.
